(** * LogTrace relay server: session and broadcast engine

    A shallow embedding of the relay server (the Socket.IO handlers that
    manage the [streams] and [nodeMap] registries) together with the
    properties of its specification.

    The server is a single-threaded event loop: every handler runs to
    completion before the next event is dispatched, so a handler is a
    function from the state before the event to the state after it and
    the list of messages it emitted. *)

From Stdlib Require Import ZArith String List Ascii.
From Stdlib.Strings Require Byte.
From stdpp Require Import base gmap strings list pretty.

Local Open Scope string_scope.
Local Open Scope list_scope.

(** ** JavaScript values carried by events *)

(** The [data] argument of an event is whatever the client sent, decoded
    from JSON.  Numbers are only ever tested for truthiness and strict
    equality by the handlers, which the integers preserve.  An object is
    the list of its own properties (arrays included, keyed by index). *)
#[warnings="-register-all"]
Inductive JsValue :=
| JUndefined
| JNull
| JBool (b : bool)
| JNum (n : Z)
| JStr (s : string)
| JObj (fields : list (string * JsValue)).

(** [!!v] *)
Definition truthy (v : JsValue) : bool :=
  match v with
  | JUndefined | JNull => false
  | JBool b => b
  | JNum n => negb (n =? 0)%Z
  | JStr s => negb (String.eqb s "")
  | JObj _ => true
  end.

(** Destructuring [const { a, b } = v] throws a TypeError exactly when [v]
    is [undefined] or [null]; every other value is coerced to an object. *)
Definition object_coercible (v : JsValue) : bool :=
  match v with
  | JUndefined | JNull => false
  | _ => true
  end.

Fixpoint own_property (k : string) (fields : list (string * JsValue)) : option JsValue :=
  match fields with
  | [] => None
  | (k', v) :: rest => if decide (k = k') then Some v else own_property k rest
  end.

(** [v.k] for the property names the handlers read ([streamName],
    [passwordHash], [streamId], [payload], [level]): none of them is
    defined on a prototype, so a primitive yields [undefined]. *)
Definition get_prop (k : string) (v : JsValue) : JsValue :=
  match v with
  | JObj fields => default JUndefined (own_property k fields)
  | _ => JUndefined
  end.

(** [a === b].  The handlers compare a value kept from an earlier packet
    with a value of the current packet; two objects decoded from different
    packets are never the same reference, so objects are never equal. *)
Definition strict_eq (a b : JsValue) : bool :=
  match a, b with
  | JUndefined, JUndefined => true
  | JNull, JNull => true
  | JBool x, JBool y => Bool.eqb x y
  | JNum x, JNum y => (x =? y)%Z
  | JStr x, JStr y => String.eqb x y
  | _, _ => false
  end.

(** A destructuring default, [{ k = d } = v]: used when the property is
    [undefined] (and only then). *)
Definition with_default (d v : JsValue) : JsValue :=
  match v with
  | JUndefined => d
  | _ => v
  end.

(** ** Containers *)

(** A JavaScript [Map] with string keys, in insertion order ([stream:list]
    iterates over it). *)
Definition JsMap (V : Type) := list (string * V).

Fixpoint jsmap_get {V} (k : string) (m : JsMap V) : option V :=
  match m with
  | [] => None
  | (k', v) :: rest => if decide (k = k') then Some v else jsmap_get k rest
  end.

(** [set] keeps the position of a key that is already present. *)
Fixpoint jsmap_set {V} (k : string) (v : V) (m : JsMap V) : JsMap V :=
  match m with
  | [] => [(k, v)]
  | (k', v') :: rest =>
      if decide (k = k') then (k, v) :: rest else (k', v') :: jsmap_set k v rest
  end.

(** In-place mutation of the object stored under a key. *)
Fixpoint jsmap_alter {V} (f : V → V) (k : string) (m : JsMap V) : JsMap V :=
  match m with
  | [] => []
  | (k', v) :: rest =>
      if decide (k = k') then (k', f v) :: rest else (k', v) :: jsmap_alter f k rest
  end.

(** A JavaScript [Set] of strings, in insertion order ([getStreamNodes]
    iterates over it). *)
Definition set_add (x : string) (s : list string) : list string :=
  if decide (x ∈ s) then s else s ++ [x].

Definition set_delete (x : string) (s : list string) : list string :=
  filter (λ y, y ≠ x) s.

(** ** The registries *)

Module Stream.
Record t := mk {
  id : string;
  name : JsValue;
  passwordHash : JsValue;
  createdAt : Z;
  nodes : list string
}.

Definition with_nodes (ns : list string) (s : t) : t :=
  mk (id s) (name s) (passwordHash s) (createdAt s) ns.
End Stream.

Module Node.
Record t := mk {
  nodeId : string;
  streamId : option string
}.
End Node.

(** ** Outbound messages *)

Inductive Msg :=
| NodeAssigned (nodeId : string)
| CreateResultOk (streamId : string) (streamName : JsValue)
| CreateResultError (error : string)
| JoinResultOk (streamId : string) (streamName : JsValue)
| JoinResultError (error : string)
| LeaveResultOk
| PushResultOk
| PushResultError (error : string)
| LogBroadcast (streamId nodeId : string) (payload level : JsValue) (timestamp : Z)
| NodeList (streamId : string) (nodes : list string)
| StreamList (entries : list (string * JsValue * nat * Z)).

(** [socket.emit] reaches one socket; [io.to(room).emit] reaches the
    sockets that are in the room when it is called. *)
Inductive Emit :=
| ToSocket (socketId : string) (m : Msg)
| ToRoom (room : string) (recipients : list string) (m : Msg).

(** ** Server state *)

(** [streams] and [nodeMap] are the two registries of the program.  The
    other two components are the part of Socket.IO the handlers rely on:
    [sockets] holds the connected sockets, each with the [nodeId] constant
    its handlers close over, and [rooms] is the adapter's room table. *)
Record State := mkState {
  streams : JsMap Stream.t;
  nodeMap : gmap string Node.t;
  sockets : gmap string string;
  rooms : gmap string (gset string)
}.

Definition init : State := mkState [] ∅ ∅ ∅.

Definition set_streams (m : JsMap Stream.t) (st : State) : State :=
  mkState m (nodeMap st) (sockets st) (rooms st).
Definition set_nodeMap (m : gmap string Node.t) (st : State) : State :=
  mkState (streams st) m (sockets st) (rooms st).
Definition set_sockets (m : gmap string string) (st : State) : State :=
  mkState (streams st) (nodeMap st) m (rooms st).
Definition set_rooms (m : gmap string (gset string)) (st : State) : State :=
  mkState (streams st) (nodeMap st) (sockets st) m.

Definition room_members (r : string) (st : State) : gset string :=
  default ∅ (rooms st !! r).

(** [socket.join(r)] *)
Definition socket_join (socketId r : string) (st : State) : State :=
  set_rooms (<[r := {[socketId]} ∪ room_members r st]> (rooms st)) st.

(** [socket.leave(r)] *)
Definition socket_leave (socketId r : string) (st : State) : State :=
  set_rooms (<[r := room_members r st ∖ {[socketId]}]> (rooms st)) st.

(** What Socket.IO does to a closing socket before it fires [disconnect]:
    the socket leaves every room and is dropped from the namespace. *)
Definition socket_close (socketId : string) (st : State) : State :=
  set_sockets (delete socketId (sockets st))
    (set_rooms ((λ members, members ∖ {[socketId]}) <$> rooms st) st).

(** The result of running a handler: it returns, or a TypeError escapes
    it.  Nothing catches an exception thrown by a listener, so the second
    case ends the process. *)
Inductive Outcome :=
| Done (st : State) (out : list Emit)
| Throws (st : State) (out : list Emit).

Definition final_state (o : Outcome) : State :=
  match o with Done st _ | Throws st _ => st end.

Definition emitted (o : Outcome) : list Emit :=
  match o with Done _ out | Throws _ out => out end.

(** ** The program *)

(** ['node-' + uuidv4().slice(0, 8)], for the value [uuid] returned by
    [uuidv4()]. *)
Definition generateNodeId (uuid : string) : string :=
  String.append "node-" (substring 0 8 uuid).

Definition getStreamNodes (streamId : string) (st : State) : list string :=
  match jsmap_get streamId (streams st) with
  | None => []
  | Some stream =>
      omap (λ socketId, Node.nodeId <$> nodeMap st !! socketId) (Stream.nodes stream)
  end.

Definition broadcastNodeList (streamId : string) (st : State) : Emit :=
  ToRoom streamId (elements (room_members streamId st))
    (NodeList streamId (getStreamNodes streamId st)).

(** [stream.nodes.add(..)] and [stream.nodes.delete(..)] mutate the set of
    the stream object that [streams] holds under [streamId]; the handlers
    only ever reach a stream object through [streams.get]. *)
Definition mutate_nodes (f : list string → list string) (streamId : string)
    (st : State) : State :=
  set_streams
    (jsmap_alter (λ stream, Stream.with_nodes (f (Stream.nodes stream)) stream)
       streamId (streams st)) st.

(** [streams.get(v)] for an arbitrary value [v]: the keys are strings, so
    only a string can be found.  The key is returned with the stream. *)
Definition streams_get (v : JsValue) (st : State) : option (string * Stream.t) :=
  match v with
  | JStr k => (λ stream, (k, stream)) <$> jsmap_get k (streams st)
  | _ => None
  end.

(** [currentNode && currentNode.streamId]: the stream id when the entry
    exists and its [streamId] is truthy. *)
Definition current_streamId (currentNode : option Node.t) : option string :=
  match currentNode with
  | Some info =>
      match Node.streamId info with
      | Some s => if decide (s = "") then None else Some s
      | None => None
      end
  | None => None
  end.

(** The block
    [if (stream) { stream.nodes.delete(socket.id); socket.leave(..); broadcastNodeList(..) }]
    of the join and leave handlers; the disconnect handler has the same
    block without [socket.leave] ([leaveRoom = false]). *)
Definition remove_from_stream (socketId streamId : string) (leaveRoom : bool)
    (st : State) : State * list Emit :=
  match jsmap_get streamId (streams st) with
  | Some stream =>
      let st1 := mutate_nodes (set_delete socketId) streamId st in
      let st2 := if leaveRoom then socket_leave socketId streamId st1 else st1 in
      (st2, [broadcastNodeList streamId st2])
  | None => (st, [])
  end.

(** [io.on('connection', ...)], with [uuid] the value [uuidv4()] returns. *)
Definition onConnection (socketId uuid : string) (st : State) : State * list Emit :=
  let nodeId := generateNodeId uuid in
  let st1 := set_nodeMap (<[socketId := Node.mk nodeId None]> (nodeMap st)) st in
  (set_sockets (<[socketId := nodeId]> (sockets st1)) st1,
   [ToSocket socketId (NodeAssigned nodeId)]).

(** [socket.on('stream:create', ...)], with [uuid] and [now] the values
    [uuidv4()] and [Date.now()] return when they are called. *)
Definition streamCreate (socketId : string) (data : JsValue) (uuid : string) (now : Z)
    (st : State) : Outcome :=
  if negb (object_coercible data) then Throws st [] else
  let streamName := get_prop "streamName" data in
  let passwordHash := get_prop "passwordHash" data in
  if negb (truthy streamName) || negb (truthy passwordHash) then
    Done st [ToSocket socketId (CreateResultError "Missing required parameters")]
  else
    let streamId := uuid in
    Done
      (set_streams
         (jsmap_set streamId (Stream.mk streamId streamName passwordHash now [])
            (streams st)) st)
      [ToSocket socketId (CreateResultOk streamId streamName)].

(** [socket.on('stream:join', ...)]; [nodeId] is the constant of the
    enclosing connection handler. *)
Definition streamJoin (socketId nodeId : string) (data : JsValue) (st : State) : Outcome :=
  if negb (object_coercible data) then Throws st [] else
  let streamId := get_prop "streamId" data in
  let passwordHash := get_prop "passwordHash" data in
  match streams_get streamId st with
  | None => Done st [ToSocket socketId (JoinResultError "Stream not found")]
  | Some (streamId, stream) =>
      if negb (strict_eq (Stream.passwordHash stream) passwordHash) then
        Done st [ToSocket socketId (JoinResultError "Invalid access key")]
      else
        let '(st1, out1) :=
          match current_streamId (nodeMap st !! socketId) with
          | Some old => remove_from_stream socketId old true st
          | None => (st, [])
          end in
        let st2 := mutate_nodes (set_add socketId) streamId st1 in
        let st3 := socket_join socketId streamId st2 in
        let st4 := set_nodeMap (<[socketId := Node.mk nodeId (Some streamId)]> (nodeMap st3)) st3 in
        Done st4
          (out1 ++ [ToSocket socketId (JoinResultOk streamId (Stream.name stream));
                    broadcastNodeList streamId st4])
  end.

(** [socket.on('stream:leave', ...)] *)
Definition streamLeave (socketId nodeId : string) (st : State) : Outcome :=
  match current_streamId (nodeMap st !! socketId) with
  | Some current =>
      let '(st1, out1) := remove_from_stream socketId current true st in
      Done (set_nodeMap (<[socketId := Node.mk nodeId None]> (nodeMap st1)) st1)
        (out1 ++ [ToSocket socketId LeaveResultOk])
  | None => Done st [ToSocket socketId LeaveResultOk]
  end.

(** [socket.on('log:push', ...)], with [now] the value of [Date.now()]. *)
Definition logPush (socketId : string) (data : JsValue) (now : Z) (st : State) : Outcome :=
  match nodeMap st !! socketId, current_streamId (nodeMap st !! socketId) with
  | Some currentNode, Some streamId =>
      if negb (object_coercible data) then Throws st [] else
      let payload := get_prop "payload" data in
      let level := with_default (JStr "INFO") (get_prop "level" data) in
      if negb (truthy payload) then
        Done st [ToSocket socketId (PushResultError "Empty payload")]
      else
        let message := LogBroadcast streamId (Node.nodeId currentNode) payload level now in
        Done st
          [ToRoom streamId (elements (room_members streamId st)) message;
           ToSocket socketId PushResultOk]
  | _, _ => Done st [ToSocket socketId (PushResultError "Not connected to any stream")]
  end.

(** [socket.on('stream:list', ...)] *)
Definition streamList (socketId : string) (st : State) : Outcome :=
  Done st
    [ToSocket socketId
       (StreamList
          (map (λ '(id, stream),
                  (id, Stream.name stream, length (Stream.nodes stream),
                   Stream.createdAt stream))
             (streams st)))].

(** [socket.on('disconnect', ...)] *)
Definition onDisconnect (socketId : string) (st : State) : State * list Emit :=
  match nodeMap st !! socketId with
  | Some currentNode =>
      let '(st1, out1) :=
        match current_streamId (Some currentNode) with
        | Some current => remove_from_stream socketId current false st
        | None => (st, [])
        end in
      (set_nodeMap (delete socketId (nodeMap st1)) st1, out1)
  | None => (st, [])
  end.

(** ** Events *)

(** What the environment supplies: the socket an event arrives on, the
    data the client sent, and the values returned by [uuidv4()] and
    [Date.now()] when the handler calls them. *)
Inductive Event :=
| EvConnect (socketId uuid : string)
| EvCreate (socketId : string) (data : JsValue) (uuid : string) (now : Z)
| EvJoin (socketId : string) (data : JsValue)
| EvLeave (socketId : string)
| EvPush (socketId : string) (data : JsValue) (now : Z)
| EvList (socketId : string)
| EvDisconnect (socketId : string).

(** Dispatch of one event.  Socket.IO connects a socket under an id that
    no connected socket has, puts it in the room named by its own id, and
    delivers client events only to connected sockets; [None] stands for an
    event the transport cannot produce. *)
Definition step (st : State) (ev : Event) : option Outcome :=
  match ev with
  | EvConnect socketId uuid =>
      match sockets st !! socketId with
      | Some _ => None
      | None =>
          let '(st', out) := onConnection socketId uuid (socket_join socketId socketId st) in
          Some (Done st' out)
      end
  | EvCreate socketId data uuid now =>
      _ ← sockets st !! socketId; Some (streamCreate socketId data uuid now st)
  | EvJoin socketId data =>
      nodeId ← sockets st !! socketId; Some (streamJoin socketId nodeId data st)
  | EvLeave socketId =>
      nodeId ← sockets st !! socketId; Some (streamLeave socketId nodeId st)
  | EvPush socketId data now =>
      _ ← sockets st !! socketId; Some (logPush socketId data now st)
  | EvList socketId =>
      _ ← sockets st !! socketId; Some (streamList socketId st)
  | EvDisconnect socketId =>
      _ ← sockets st !! socketId;
      let '(st', out) := onDisconnect socketId (socket_close socketId st) in
      Some (Done st' out)
  end.

(** What the libraries guarantee about the identifiers they generate: a
    Socket.IO socket id has 20 characters; [uuidv4()] returns a
    36-character string that it has not returned before. *)
Definition env_ok (st : State) (ev : Event) : Prop :=
  match ev with
  | EvConnect socketId _ => String.length socketId = 20
  | EvCreate _ _ uuid _ =>
      String.length uuid = 36 ∧ jsmap_get uuid (streams st) = None
  | _ => True
  end.

(** The states the server can be in after a sequence of completed
    operations. *)
Inductive reachable : State → Prop :=
| reachable_init : reachable init
| reachable_step st ev st' out :
    reachable st → env_ok st ev → step st ev = Some (Done st' out) → reachable st'.

(** Runs a sequence of events, collecting what is emitted; stops at an
    event that cannot occur or at the first exception. *)
Fixpoint run (st : State) (evs : list Event) : State * list Emit :=
  match evs with
  | [] => (st, [])
  | ev :: rest =>
      match step st ev with
      | Some (Done st' out) => let '(st'', out') := run st' rest in (st'', out ++ out')
      | Some (Throws st' out) => (st', out)
      | None => (st, [])
      end
  end.

(** ** Observations on a state *)

Definition registered (streamId : string) (st : State) : Prop :=
  is_Some (jsmap_get streamId (streams st)).

(** The member set of a stream (empty for an id that names no stream). *)
Definition members (streamId : string) (st : State) : list string :=
  default [] (Stream.nodes <$> jsmap_get streamId (streams st)).

(** The messages of one kind that a socket receives from a list of
    emissions, in order. *)
Definition deliver (keep : Msg → bool) (socketId : string) (m : Msg) (x : string) : list Msg :=
  if decide (x = socketId) then (if keep m then [m] else []) else [].

Definition received (keep : Msg → bool) (socketId : string) (out : list Emit) : list Msg :=
  flat_map
    (λ e, match e with
          | ToSocket x m => deliver keep socketId m x
          | ToRoom _ recipients m => flat_map (deliver keep socketId m) recipients
          end) out.

Definition is_log_broadcast (m : Msg) : bool :=
  match m with LogBroadcast _ _ _ _ _ => true | _ => false end.

(** The [io.to(..).emit] calls among a list of emissions that carry a
    message of one kind. *)
Definition room_emits (keep : Msg → bool) (out : list Emit) : list Emit :=
  List.filter (λ e, match e with ToRoom _ _ m => keep m | ToSocket _ _ => false end) out.

(** The error kinds of the specification, as the strings the server sends. *)
Definition InvalidRequest : string := "Missing required parameters".
Definition NotFound : string := "Stream not found".
Definition Unauthorized : string := "Invalid access key".
Definition NoStream : string := "Not connected to any stream".
Definition EmptyPayload : string := "Empty payload".

(** ** Definitions used by the statements and the proofs *)

(** The observations see through the updates of the other components. *)
Ltac obs_simpl :=
  repeat first
    [ progress change (members ?s (set_nodeMap ?m ?st)) with (members s st) in *
    | progress change (members ?s (set_sockets ?m ?st)) with (members s st) in *
    | progress change (members ?s (socket_join ?x ?k ?st)) with (members s st) in *
    | progress change (members ?s (socket_close ?x ?st)) with (members s st) in *
    | progress change (registered ?s (set_nodeMap ?m ?st)) with (registered s st) in *
    | progress change (registered ?s (set_sockets ?m ?st)) with (registered s st) in *
    | progress change (registered ?s (socket_join ?x ?k ?st)) with (registered s st) in *
    | progress change (registered ?s (socket_close ?x ?st)) with (registered s st) in *
    | progress change (room_members ?r (set_nodeMap ?m ?st)) with (room_members r st) in *
    | progress change (room_members ?r (set_sockets ?m ?st)) with (room_members r st) in *
    | progress change (room_members ?r (mutate_nodes ?f ?k ?st)) with (room_members r st) in *
    | progress change (nodeMap (set_nodeMap ?m ?st)) with m in *
    | progress change (nodeMap (set_sockets ?m ?st)) with (nodeMap st) in *
    | progress change (nodeMap (socket_join ?x ?k ?st)) with (nodeMap st) in *
    | progress change (nodeMap (socket_close ?x ?st)) with (nodeMap st) in *
    | progress change (nodeMap (mutate_nodes ?f ?k ?st)) with (nodeMap st) in *
    | progress change (sockets (set_nodeMap ?m ?st)) with (sockets st) in *
    | progress change (sockets (set_sockets ?m ?st)) with m in *
    | progress change (sockets (socket_join ?x ?k ?st)) with (sockets st) in *
    | progress change (sockets (socket_close ?x ?st)) with (delete x (sockets st)) in *
    | progress change (sockets (mutate_nodes ?f ?k ?st)) with (sockets st) in * ].

(** [wf_current] and [wf_member] are the two directions of the membership
    consistency between [nodeMap] and the member sets; the remaining
    fields are what is needed to carry them through the handlers: the
    shapes of the identifiers in use, the agreement of [nodeMap] with the
    connected sockets, and the agreement of the Socket.IO rooms with the
    member sets. *)
Record wf (st : State) : Prop := {
  wf_current x info s :
    nodeMap st !! x = Some info → Node.streamId info = Some s → x ∈ members s st;
  wf_member x s :
    x ∈ members s st →
    ∃ info, nodeMap st !! x = Some info ∧ Node.streamId info = Some s;
  wf_stream_id s : registered s st → String.length s = 36;
  wf_registered x info :
    nodeMap st !! x = Some info → sockets st !! x = Some (Node.nodeId info);
  wf_live x n :
    sockets st !! x = Some n →
    ∃ info, nodeMap st !! x = Some info ∧ Node.nodeId info = n;
  wf_socket_id x n : sockets st !! x = Some n → String.length x = 20;
  wf_room s x : registered s st → x ∈ room_members s st ↔ x ∈ members s st;
  wf_rooms r x :
    x ∈ room_members r st →
    (r = x ∧ is_Some (sockets st !! x)) ∨ registered r st
}.

(** The step that join, leave and disconnect share: the socket is taken
    out of the stream its entry names, if any. *)
Definition detached (x : string) (leaveRoom : bool) (st : State) : State * list Emit :=
  match current_streamId (nodeMap st !! x) with
  | Some old => remove_from_stream x old leaveRoom st
  | None => (st, [])
  end.

(** The state a successful leave ends in. *)
Definition left (x nodeId : string) (st : State) : State :=
  let st1 := (detached x true st).1 in
  set_nodeMap (<[x := Node.mk nodeId None]> (nodeMap st1)) st1.

(** The state a successful join of stream [k] ends in. *)
Definition joined (x nodeId k : string) (st : State) : State :=
  let st3 := socket_join x k (mutate_nodes (set_add x) k (detached x true st).1) in
  set_nodeMap (<[x := Node.mk nodeId (Some k)]> (nodeMap st3)) st3.

(** The state the disconnect handler ends in for a registered socket. *)
Definition disconnected (x : string) (st : State) : State :=
  let st1 := (detached x false st).1 in
  set_nodeMap (delete x (nodeMap st1)) st1.

(** A sequence of events that the environment can produce from [st], each
    operation completing. *)
Fixpoint valid_trace (st : State) (evs : list Event) : Prop :=
  match evs with
  | [] => True
  | ev :: rest =>
      env_ok st ev ∧
      match step st ev with
      | Some (Done st' _) => valid_trace st' rest
      | _ => False
      end
  end.

(** Two connections; the first creates the stream [alpha] and both join
    it. *)
Definition socketA : string := "Zx8kq1LmT0aPw3VbAAAB".
Definition socketB : string := "n4Jd7QyHs2RfUe9cAAAD".
Definition uuidA : string := "3f2a9c10-7b1e-4c55-9d0a-5e8f6a1b2c3d".
Definition uuidB : string := "c81d4e2e-bcf2-41e4-a2f7-0d9b3e6a7f10".
Definition streamS1 : string := "0b5e7a42-9c3d-4f1a-8e2b-6d7c8a9b0c1d".

Definition create_alpha : JsValue :=
  JObj [("streamName", JStr "alpha"); ("passwordHash", JStr "t1")].
Definition join_alpha (token : string) : JsValue :=
  JObj [("streamId", JStr streamS1); ("passwordHash", JStr token)].
Definition push_p1 : JsValue := JObj [("payload", JStr "p1")].

(** A push that names its level. *)
Definition push_warn : JsValue := JObj [("payload", JStr "p2"); ("level", JStr "WARN")].

Definition scenario : list Event :=
  [EvConnect socketA uuidA; EvConnect socketB uuidB;
   EvCreate socketA create_alpha streamS1 1700000000000;
   EvJoin socketA (join_alpha "t1"); EvJoin socketB (join_alpha "t1")].

Definition scenario_state : State := (run init scenario).1.

(** For a registered connection: its entry names stream [s] exactly when
    the connection is in the member set of [s], and it is in the member
    set of at most one stream. *)
Definition consistent (st : State) : Prop :=
  ∀ x info, nodeMap st !! x = Some info →
    (∀ s, Node.streamId info = Some s ↔ x ∈ members s st)
    ∧ (∀ s1 s2, x ∈ members s1 st → x ∈ members s2 st → s1 = s2).

(** The create handler reports success. *)
Definition create_succeeds (x : string) (o : Outcome) : Prop :=
  ∃ k name, ToSocket x (CreateResultOk k name) ∈ emitted o.

(** The join handler reports success. *)
Definition join_succeeds (x : string) (o : Outcome) : Prop :=
  ∃ k name, ToSocket x (JoinResultOk k name) ∈ emitted o.

(** The outcome of a request that fails with [error]: the handler returns,
    the state is the one before the request, and the error result sent to
    the requester is all that is emitted. *)
Definition join_fails (error : string) (x : string) (st : State) (o : Outcome) : Prop :=
  o = Done st [ToSocket x (JoinResultError error)].

(** The connection is in the member set of some stream. *)
Definition has_membership (x : string) (st : State) : Prop :=
  ∃ s, x ∈ members s st.

Definition push_fails (error : string) (x : string) (st : State) (o : Outcome) : Prop :=
  o = Done st [ToSocket x (PushResultError error)].

Definition push_succeeds (x : string) (o : Outcome) : Prop :=
  ToSocket x PushResultOk ∈ emitted o.

(** Both members of [alpha] leave, one by leaving and one by
    disconnecting; then the stream is listed. *)
Definition scenario_emptied : list Event :=
  [EvLeave socketA; EvDisconnect socketB; EvList socketA].

(** The ids the server hands out, as they appear in what it emits. *)
Definition assigned_nodeIds (out : list Emit) : list string :=
  omap (λ e, match e with ToSocket _ (NodeAssigned n) => Some n | _ => None end) out.

Definition created_streamIds (out : list Emit) : list string :=
  omap (λ e, match e with ToSocket _ (CreateResultOk k _) => Some k | _ => None end) out.

(** The values [uuidv4()] has ready for the connections and for the create
    requests of a sequence of events. *)
Definition connect_uuids (evs : list Event) : list string :=
  omap (λ ev, match ev with EvConnect _ u => Some u | _ => None end) evs.

Definition create_uuids (evs : list Event) : list string :=
  omap (λ ev, match ev with EvCreate _ _ u _ => Some u | _ => None end) evs.

(** Two connections whose uuids differ but start with the same eight
    characters. *)
Definition uuidA' : string := "3f2a9c10-04d2-4b8e-b6a1-91c07e5d2f44".

Definition collision : list Event :=
  [EvConnect socketA uuidA; EvConnect socketB uuidA'].

(** Every message. *)
Definition any_msg (m : Msg) : bool := true.

(** [ns] are the node ids that [nodeMap] holds for the sockets [ys], in
    order. *)
Definition node_ids_of (st : State) (ys ns : list string) : Prop :=
  Forall2 (λ y n, ∃ info, nodeMap st !! y = Some info ∧ Node.nodeId info = n) ys ns.

(** ** Messages on the wire *)

(** A JavaScript array: its elements under their indices, and [length]. *)
Definition js_array (vs : list JsValue) : JsValue :=
  JObj (imap (λ i v, (pretty i, v)) vs ++ [("length", JNum (Z.of_nat (length vs)))]).

(** The event name and the object of each [emit] of the server. *)
Definition wire (m : Msg) : string * JsValue :=
  match m with
  | NodeAssigned nodeId => ("node:assigned", JObj [("nodeId", JStr nodeId)])
  | CreateResultOk streamId streamName =>
      ("stream:create:result",
       JObj [("success", JBool true); ("streamId", JStr streamId);
             ("streamName", streamName)])
  | CreateResultError error =>
      ("stream:create:result", JObj [("success", JBool false); ("error", JStr error)])
  | JoinResultOk streamId streamName =>
      ("stream:join:result",
       JObj [("success", JBool true); ("streamId", JStr streamId);
             ("streamName", streamName)])
  | JoinResultError error =>
      ("stream:join:result", JObj [("success", JBool false); ("error", JStr error)])
  | LeaveResultOk => ("stream:leave:result", JObj [("success", JBool true)])
  | PushResultOk => ("log:push:result", JObj [("success", JBool true)])
  | PushResultError error =>
      ("log:push:result", JObj [("success", JBool false); ("error", JStr error)])
  | LogBroadcast streamId nodeId payload level timestamp =>
      ("log:broadcast",
       JObj [("streamId", JStr streamId); ("nodeId", JStr nodeId);
             ("payload", payload); ("level", level); ("timestamp", JNum timestamp)])
  | NodeList streamId nodes =>
      ("node:list",
       JObj [("streamId", JStr streamId); ("nodes", js_array (JStr <$> nodes))])
  | StreamList entries =>
      ("stream:list:result",
       JObj [("streams",
              js_array
                ((λ '(id, name, nodeCount, createdAt),
                    JObj [("id", JStr id); ("name", name);
                          ("nodeCount", JNum (Z.of_nat nodeCount));
                          ("createdAt", JNum createdAt)]) <$> entries))])
  end.

(** ** The client library *)

(** The variables of the [LogSocket] module.  [socket] is [null] or a
    Socket.IO client socket, of which the module reads the [connected]
    flag; a callback is [null] or a function, named here by a number. *)
Module Client.
Record t := mk {
  socket : option bool;
  serverUrl : JsValue;
  nodeId : JsValue;
  currentStreamId : JsValue;
  callbacks : gmap string (option nat)
}.

Definition with_socket (s : option bool) (c : t) : t :=
  mk s (serverUrl c) (nodeId c) (currentStreamId c) (callbacks c).
Definition with_serverUrl (u : JsValue) (c : t) : t :=
  mk (socket c) u (nodeId c) (currentStreamId c) (callbacks c).
Definition with_nodeId (n : JsValue) (c : t) : t :=
  mk (socket c) (serverUrl c) n (currentStreamId c) (callbacks c).
Definition with_currentStreamId (s : JsValue) (c : t) : t :=
  mk (socket c) (serverUrl c) (nodeId c) s (callbacks c).
Definition with_callbacks (cb : gmap string (option nat)) (c : t) : t :=
  mk (socket c) (serverUrl c) (nodeId c) (currentStreamId c) cb.

(** What a function of the module does to the outside. *)
Inductive Effect :=
| Open (url : JsValue)
| SocketEmit (event : string) (data : option JsValue)
| SocketDisconnect
| Invoke (callback : nat) (args : list JsValue).

Definition callback_names : list string :=
  ["onConnect"; "onDisconnect"; "onNodeAssigned"; "onStreamCreated"; "onStreamJoined";
   "onStreamLeft"; "onLogReceived"; "onNodeListUpdated"; "onError"].

Definition initial : t :=
  mk None (JStr "http://localhost:3000") JNull JNull
    (list_to_map ((λ name, (name, None)) <$> callback_names)).

(** [if (callbacks.name) { callbacks.name(args) }] *)
Definition invoke (name : string) (args : list JsValue) (c : t) : list Effect :=
  match callbacks c !! name with
  | Some (Some f) => [Invoke f args]
  | _ => []
  end.

(** The listener of the socket's own [connect] event; Socket.IO has set
    [connected] before it runs. *)
Definition onConnect (c : t) : t * list Effect :=
  let c1 := with_socket ((λ _, true) <$> socket c) c in
  (c1, invoke "onConnect" [] c1).

(** The listener of the socket's own [disconnect] event; Socket.IO has
    cleared [connected] before it runs. *)
Definition onDisconnect (reason : JsValue) (c : t) : t * list Effect :=
  let c1 := with_currentStreamId JNull (with_socket ((λ _, false) <$> socket c) c) in
  (c1, invoke "onDisconnect" [reason] c1).

(** The listeners of the server's events.  Reading a property of a data
    argument that is [undefined] or [null] throws ([None]); an event
    without listener is dropped. *)
Definition receive (event : string) (data : JsValue) (c : t) : option (t * list Effect) :=
  if decide (event = "node:assigned") then
    if object_coercible data then
      let c1 := with_nodeId (get_prop "nodeId" data) c in
      Some (c1, invoke "onNodeAssigned" [nodeId c1] c1)
    else None
  else if decide (event = "stream:create:result") then
    Some (c, invoke "onStreamCreated" [data] c)
  else if decide (event = "stream:join:result") then
    if object_coercible data then
      let c1 :=
        if truthy (get_prop "success" data)
        then with_currentStreamId (get_prop "streamId" data) c else c in
      Some (c1, invoke "onStreamJoined" [data] c1)
    else None
  else if decide (event = "stream:leave:result") then
    if object_coercible data then
      let c1 :=
        if truthy (get_prop "success" data) then with_currentStreamId JNull c else c in
      Some (c1, invoke "onStreamLeft" [data] c1)
    else None
  else if decide (event = "log:broadcast") then
    Some (c, invoke "onLogReceived" [data] c)
  else if decide (event = "node:list") then
    match callbacks c !! "onNodeListUpdated" with
    | Some (Some f) =>
        if object_coercible data then Some (c, [Invoke f [get_prop "nodes" data]])
        else None
    | _ => Some (c, [])
    end
  else if decide (event = "stream:list:result") then
    if object_coercible data then Some (c, []) else None
  else Some (c, []).

(** [connect(url)], up to the creation of the socket and the registration
    of the listeners above.  [socket.disconnect()] on a connected socket
    fires its [disconnect] listeners before it returns. *)
Definition connect (url : JsValue) (c : t) : t * list Effect :=
  let '(c1, out1) :=
    match socket c with
    | Some true =>
        let '(c', out) := onDisconnect (JStr "io client disconnect") c in
        (c', SocketDisconnect :: out)
    | _ => (c, [])
    end in
  let c2 := with_serverUrl (if truthy url then url else serverUrl c1) c1 in
  (with_socket (Some false) c2, out1 ++ [Open (serverUrl c2)]).

(** [disconnect()] *)
Definition disconnect (c : t) : t * list Effect :=
  match socket c with
  | Some connected =>
      let '(c1, out1) :=
        if connected then onDisconnect (JStr "io client disconnect") c else (c, []) in
      (with_currentStreamId JNull (with_nodeId JNull (with_socket None c1)),
       SocketDisconnect :: out1)
  | None => (c, [])
  end.

(** [isConnected()]: [socket && socket.connected] *)
Definition isConnected (c : t) : JsValue :=
  match socket c with
  | None => JNull
  | Some connected => JBool connected
  end.

Definition createStream (streamName passwordHash : JsValue) (c : t) : list Effect :=
  if negb (truthy (isConnected c)) then invoke "onError" [JStr "Not connected to server"] c
  else
    [SocketEmit "stream:create"
       (Some (JObj [("streamName", streamName); ("passwordHash", passwordHash)]))].

Definition joinStream (streamId passwordHash : JsValue) (c : t) : list Effect :=
  if negb (truthy (isConnected c)) then invoke "onError" [JStr "Not connected to server"] c
  else
    [SocketEmit "stream:join"
       (Some (JObj [("streamId", streamId); ("passwordHash", passwordHash)]))].

Definition leaveStream (c : t) : list Effect :=
  if negb (truthy (isConnected c)) then [] else [SocketEmit "stream:leave" None].

(** [pushLog(payload, level = 'INFO')] *)
Definition pushLog (payload level : JsValue) (c : t) : list Effect :=
  let level := with_default (JStr "INFO") level in
  if negb (truthy (isConnected c)) then invoke "onError" [JStr "Not connected to server"] c
  else if negb (truthy (currentStreamId c)) then
    invoke "onError" [JStr "Not joined to any stream"] c
  else [SocketEmit "log:push" (Some (JObj [("payload", payload); ("level", level)]))].

Definition listStreams (c : t) : list Effect :=
  if truthy (isConnected c) then [SocketEmit "stream:list" None] else [].

(** [on(event, callback)] *)
Definition on (event : string) (callback : option nat) (c : t) : t :=
  if decide (is_Some (callbacks c !! event))
  then with_callbacks (<[event := callback]> (callbacks c)) c
  else c.
End Client.

(** ** Client and server in lock step *)

(** The client handles, in order, the messages the server sent it. *)
Fixpoint feed (c : Client.t) (ms : list Msg) : option Client.t :=
  match ms with
  | [] => Some c
  | m :: rest =>
      match Client.receive (wire m).1 (wire m).2 c with
      | Some (c', _) => feed c' rest
      | None => None
      end
  end.

(** One event of the server as the client behind socket [x] lives it: it
    connects when the server sees its connection, handles what the server
    sends it, and sees its socket close when the server does. *)
Definition client_step (x : string) (ev : Event) (out : list Emit) (c : Client.t)
    : option Client.t :=
  let c1 :=
    match ev with
    | EvConnect y _ =>
        if decide (y = x) then (Client.onConnect (Client.connect JUndefined c).1).1 else c
    | _ => c
    end in
  match feed c1 (received any_msg x out) with
  | Some c2 =>
      Some match ev with
           | EvDisconnect y =>
               if decide (y = x)
               then (Client.onDisconnect (JStr "transport close") c2).1 else c2
           | _ => c2
           end
  | None => None
  end.

Fixpoint lockstep (x : string) (st : State) (c : Client.t) (evs : list Event)
    : option (State * Client.t) :=
  match evs with
  | [] => Some (st, c)
  | ev :: rest =>
      match step st ev with
      | Some (Done st' out) =>
          match client_step x ev out c with
          | Some c' => lockstep x st' c' rest
          | None => None
          end
      | _ => None
      end
  end.

(** The [streamId] of the server's entry for [x], as a JavaScript value. *)
Definition server_view (x : string) (st : State) : JsValue :=
  match nodeMap st !! x with
  | Some info =>
      match Node.streamId info with Some s => JStr s | None => JNull end
  | None => JNull
  end.

(** What a message of the server changes in the variables of the client. *)
Definition client_update (m : Msg) (c : Client.t) : Client.t :=
  match m with
  | NodeAssigned n => Client.with_nodeId (JStr n) c
  | JoinResultOk k _ => Client.with_currentStreamId (JStr k) c
  | LeaveResultOk => Client.with_currentStreamId JNull c
  | _ => c
  end.

Definition changes_client (m : Msg) : bool :=
  match m with
  | NodeAssigned _ | JoinResultOk _ _ | LeaveResultOk => true
  | _ => false
  end.

(** The client and the server agree on the connection [x]. *)
Definition in_sync (x : string) (st : State) (c : Client.t) : Prop :=
  Client.currentStreamId c = server_view x st
  ∧ (∀ n, sockets st !! x = Some n →
       Client.nodeId c = JStr n ∧ Client.socket c = Some true)
  ∧ (sockets st !! x = None → Client.socket c ≠ Some true).

(** What a message of the server changes in the client's [currentStreamId]. *)
Definition view_update (v : JsValue) (m : Msg) : JsValue :=
  match m with
  | JoinResultOk k _ => JStr k
  | LeaveResultOk => JNull
  | _ => v
  end.

Definition closes (x : string) (ev : Event) : bool :=
  match ev with EvDisconnect y => bool_decide (y = x) | _ => false end.

Definition opens (x : string) (ev : Event) : bool :=
  match ev with EvConnect y _ => bool_decide (y = x) | _ => false end.

(** The event of the server that a [socket.emit] of the client behind
    socket [x] becomes; a missing argument arrives as [undefined]. *)
Definition as_server_event (x uuid : string) (now : Z) (event : string)
    (data : option JsValue) : option Event :=
  if decide (event = "stream:create") then
    Some (EvCreate x (default JUndefined data) uuid now)
  else if decide (event = "stream:join") then Some (EvJoin x (default JUndefined data))
  else if decide (event = "stream:leave") then Some (EvLeave x)
  else if decide (event = "log:push") then Some (EvPush x (default JUndefined data) now)
  else if decide (event = "stream:list") then Some (EvList x)
  else None.

(** What the functions of the module that talk to the server do, all
    together. *)
Definition api_effects (a b : JsValue) (c : Client.t) : list Client.Effect :=
  Client.createStream a b c ++ Client.joinStream a b c ++ Client.leaveStream c
  ++ Client.pushLog a b c ++ Client.listStreams c.

Definition is_socket_emit (e : Client.Effect) : bool :=
  match e with Client.SocketEmit _ _ => true | _ => false end.

(** A client with a connected socket and nothing else set. *)
Definition connected_client : Client.t := Client.with_socket (Some true) Client.initial.

(** The callbacks of the module are the nine it starts with. *)
Definition callbacks_ok (c : Client.t) : Prop :=
  ∀ name, is_Some (Client.callbacks c !! name) ↔ name ∈ Client.callback_names.

(** ** The crypto module of the extension *)




(** The digit of value [d] in [Number.prototype.toString(16)]. *)
Definition hex_digit (d : N) : ascii :=
  default "0"%char (String.get (N.to_nat d) "0123456789abcdef").

Fixpoint toString16_digits (fuel : nat) (n : N) (acc : string) : string :=
  match fuel with
  | O => acc
  | S fuel' =>
      let acc' := String (hex_digit (n mod 16)) acc in
      if (n / 16 =? 0)%N then acc' else toString16_digits fuel' (n / 16) acc'
  end.

(** [n.toString(16)] for a non-negative integer: its hexadecimal digits,
    the most significant first, as many as it has. *)
Definition toString16 (n : N) : string :=
  toString16_digits (S (N.to_nat (N.log2 n))) n "".

(** The first [n] characters of [pad] repeated for ever ([cur] is what is
    left of the current repetition). *)
Fixpoint pad_fill (n : nat) (pad cur : string) : string :=
  match n with
  | O => ""
  | S n' =>
      match cur with
      | String ch rest => String ch (pad_fill n' pad rest)
      | "" =>
          match pad with
          | String ch rest => String ch (pad_fill n' pad rest)
          | "" => ""
          end
      end
  end.

(** [s.padStart(targetLength, padString)] *)
Definition padStart (targetLength : nat) (padString s : string) : string :=
  String.append (pad_fill (targetLength - String.length s) padString padString) s.

(** [b.toString(16).padStart(2, '0')] *)
Definition hex_byte (b : Byte.byte) : string := padStart 2 "0" (toString16 (Byte.to_N b)).

(** [bufferToHex(buffer)] *)
Definition bufferToHex (buffer : list Byte.byte) : string :=
  String.concat "" (map hex_byte buffer).

(** [hashPassword(password)].  [TextEncoder.encode] and the SHA-256 of
    [crypto.subtle.digest] belong to the browser and are parameters. *)
Definition hashPassword (encode : string → list Byte.byte) (digest : list Byte.byte → list Byte.byte)
    (password : string) : string :=
  bufferToHex (digest (encode password)).

(** [s.slice(0, end)] for an integer [end]: a negative [end] counts from
    the end of the string. *)
Definition slice_from_start (s : string) (e : Z) : string :=
  let len := Z.of_nat (String.length s) in
  let to := if (e <? 0)%Z then Z.max (len + e) 0 else Z.min e len in
  substring 0 (Z.to_nat to) s.

(** [truncatePayload(encrypted, maxLength)]; [maxLength] is 40 when it is
    not given. *)
Definition truncatePayload (encrypted : string) (maxLength : Z) : string :=
  if (Z.of_nat (String.length encrypted) <=? maxLength)%Z then encrypted
  else String.append (slice_from_start encrypted maxLength) "...".

(** [bufferToBase64(buffer)]: the bytes become the characters of a binary
    string, which [btoa], a parameter, encodes. *)
Definition bufferToBase64 (btoa : string → string) (buffer : list Byte.byte) : string :=
  btoa (string_of_list_byte buffer).

(** [base64ToBuffer(base64)]; [atob], a parameter, gives [None] where it
    throws. *)
Definition base64ToBuffer (atob : string → option string) (base64 : string)
    : option (list Byte.byte) :=
  list_byte_of_string <$> atob base64.

Definition ivLength : nat := 12.

(** [encrypt(plaintext, key)], for the [iv] that [crypto.getRandomValues]
    fills.  AES-GCM ([crypto.subtle.encrypt]) is a parameter. *)
Definition encrypt {Key} (btoa : string → string)
    (aes_encrypt : Key → list Byte.byte → list Byte.byte → list Byte.byte)
    (encode : string → list Byte.byte)
    (plaintext : string) (key : Key) (iv : list Byte.byte) : string :=
  let ciphertext := aes_encrypt key iv (encode plaintext) in
  bufferToBase64 btoa (iv ++ ciphertext).

(** [decrypt(encryptedBase64, key)]: the plaintext, or [null] ([None])
    when anything throws.  [crypto.subtle.decrypt] is a parameter that
    gives [None] where it rejects. *)
Definition decrypt {Key} (atob : string → option string)
    (aes_decrypt : Key → list Byte.byte → list Byte.byte → option (list Byte.byte))
    (decode : list Byte.byte → string)
    (encryptedBase64 : string) (key : Key) : option string :=
  match base64ToBuffer atob encryptedBase64 with
  | Some combined =>
      let iv := take ivLength combined in
      let ciphertext := drop ivLength combined in
      match aes_decrypt key iv ciphertext with
      | Some plaintext => Some (decode plaintext)
      | None => None
      end
  | None => None
  end.

(** The value of two hexadecimal digits (a proof device: the module has no
    decoder). *)
Definition hex_value (ch : ascii) : N :=
  let n := N_of_ascii ch in
  if (n <? 58)%N then n - 48 else n - 87.

Definition unhex_byte (hi lo : ascii) : option Byte.byte :=
  Byte.of_N (hex_value hi * 16 + hex_value lo).

Definition is_hex_digit (ch : ascii) : bool :=
  let n := N_of_ascii ch in
  (48 <=? n)%N && (n <=? 57)%N || (97 <=? n)%N && (n <=? 102)%N.

(** The two digits of a byte are hexadecimal digits and have its value. *)
Definition hex_byte_ok (b : Byte.byte) : bool :=
  match hex_byte b with
  | String hi (String lo "") =>
      is_hex_digit hi && is_hex_digit lo
      && match unhex_byte hi lo with Some b' => Byte.eqb b' b | None => false end
  | _ => false
  end.

(** ** Containers: basic facts *)

Section JsMapFacts.
Context {V : Type}.
Implicit Types (m : JsMap V) (k : string).

Lemma jsmap_get_set k k' (v : V) m :
  jsmap_get k' (jsmap_set k v m) = if decide (k = k') then Some v else jsmap_get k' m.
Proof.
  induction m as [|[k0 v0] m IH]; simpl.
  - repeat case_decide; congruence.
  - destruct (decide (k = k0)) as [->|Hne]; simpl.
    + repeat case_decide; congruence.
    + rewrite IH. repeat case_decide; congruence.
Qed.

Lemma jsmap_get_alter (f : V → V) k k' m :
  jsmap_get k' (jsmap_alter f k m)
  = if decide (k = k') then f <$> jsmap_get k' m else jsmap_get k' m.
Proof.
  induction m as [|[k0 v0] m IH]; simpl.
  - by case_decide.
  - destruct (decide (k = k0)) as [->|Hne]; simpl.
    + repeat case_decide; simpl; congruence.
    + rewrite IH. repeat case_decide; simpl; congruence.
Qed.

Lemma jsmap_alter_absent (f : V → V) k m :
  jsmap_get k m = None → jsmap_alter f k m = m.
Proof.
  induction m as [|[k0 v0] m IH]; simpl; [done|].
  case_decide; [done|]. intros Hm. by rewrite IH.
Qed.
End JsMapFacts.

Lemma elem_of_set_add x y (s : list string) : y ∈ set_add x s ↔ y = x ∨ y ∈ s.
Proof.
  unfold set_add. case_decide.
  - split; [auto|]. by intros [->|?].
  - rewrite elem_of_app, list_elem_of_singleton. tauto.
Qed.

Lemma elem_of_set_delete x y (s : list string) : y ∈ set_delete x s ↔ y ≠ x ∧ y ∈ s.
Proof. unfold set_delete. by rewrite list_elem_of_filter. Qed.

Lemma truthy_JStr s : truthy (JStr s) = false ↔ s = "".
Proof.
  simpl. rewrite negb_false_iff. apply String.eqb_eq.
Qed.

Lemma strict_eq_JStr s v : strict_eq (JStr s) v = true ↔ v = JStr s.
Proof.
  destruct v; simpl; try (split; [discriminate|congruence]).
  rewrite String.eqb_eq. split; congruence.
Qed.

Lemma strict_eq_eq a b : strict_eq a b = true → a = b.
Proof.
  destruct a, b; simpl; try discriminate; try done.
  - intros ->%Bool.eqb_prop. done.
  - intros ->%Z.eqb_eq. done.
  - intros ->%String.eqb_eq. done.
Qed.

(** ** How the state operations act on the observations *)

Lemma get_mutate_nodes f k s st :
  jsmap_get s (streams (mutate_nodes f k st))
  = if decide (k = s)
    then (λ stream, Stream.with_nodes (f (Stream.nodes stream)) stream)
           <$> jsmap_get s (streams st)
    else jsmap_get s (streams st).
Proof. unfold mutate_nodes; simpl. apply jsmap_get_alter. Qed.

Lemma registered_mutate_nodes f k s st :
  registered s (mutate_nodes f k st) ↔ registered s st.
Proof.
  unfold registered. rewrite get_mutate_nodes.
  case_decide; [|done]. by rewrite fmap_is_Some.
Qed.

Lemma members_mutate_nodes_eq f k st :
  registered k st → members k (mutate_nodes f k st) = f (members k st).
Proof.
  intros [stream Hs]. unfold members. rewrite get_mutate_nodes, Hs.
  by rewrite decide_True.
Qed.

Lemma members_mutate_nodes_ne f k s st :
  k ≠ s → members s (mutate_nodes f k st) = members s st.
Proof.
  intros Hne. unfold members. by rewrite get_mutate_nodes, decide_False.
Qed.

Lemma members_registered x s st : x ∈ members s st → registered s st.
Proof.
  unfold members, registered. destruct (jsmap_get s (streams st)); simpl; [eauto|].
  by intros ?%elem_of_nil.
Qed.

Lemma members_unregistered s st : ¬ registered s st → members s st = [].
Proof.
  unfold members, registered. destruct (jsmap_get s (streams st)); simpl; [|done].
  intros []. eauto.
Qed.

Lemma room_members_join x k r st :
  room_members r (socket_join x k st)
  = if decide (k = r) then {[x]} ∪ room_members r st else room_members r st.
Proof.
  unfold room_members at 1. unfold socket_join; simpl.
  case_decide; subst.
  - by rewrite lookup_insert_eq.
  - by rewrite lookup_insert_ne.
Qed.

Lemma room_members_leave x k r st :
  room_members r (socket_leave x k st)
  = if decide (k = r) then room_members r st ∖ {[x]} else room_members r st.
Proof.
  unfold room_members at 1. unfold socket_leave; simpl.
  case_decide; subst.
  - by rewrite lookup_insert_eq.
  - by rewrite lookup_insert_ne.
Qed.

Lemma room_members_close x r st :
  room_members r (socket_close x st) = room_members r st ∖ {[x]}.
Proof.
  unfold room_members, socket_close; simpl. rewrite lookup_fmap.
  destruct (rooms st !! r); simpl; [done|]. by rewrite empty_difference_L.
Qed.

(** [remove_from_stream] in terms of the observations. *)
Section RemoveFromStream.
Variables (x k : string) (leaveRoom : bool) (st : State).
Let st' := (remove_from_stream x k leaveRoom st).1.

Lemma remove_nodeMap : nodeMap st' = nodeMap st.
Proof.
  subst st'. unfold remove_from_stream.
  destruct (jsmap_get k (streams st)); [|done]. by destruct leaveRoom.
Qed.

Lemma remove_sockets : sockets st' = sockets st.
Proof.
  subst st'. unfold remove_from_stream.
  destruct (jsmap_get k (streams st)); [|done]. by destruct leaveRoom.
Qed.

Lemma remove_streams : streams st' = streams (mutate_nodes (set_delete x) k st).
Proof.
  subst st'. unfold remove_from_stream.
  destruct (jsmap_get k (streams st)) eqn:Hk.
  - by destruct leaveRoom.
  - simpl. by rewrite jsmap_alter_absent.
Qed.

Lemma remove_registered s : registered s st' ↔ registered s st.
Proof.
  unfold registered. rewrite remove_streams.
  apply registered_mutate_nodes.
Qed.

Lemma remove_members s :
  members s st'
  = if decide (k = s) then set_delete x (members s st) else members s st.
Proof.
  unfold members at 1. rewrite remove_streams.
  change (members s (mutate_nodes (set_delete x) k st) = 
    if decide (k = s) then set_delete x (members s st) else members s st).
  case_decide; subst.
  - destruct (decide (registered s st)) as [Hr|Hr].
    + by apply members_mutate_nodes_eq.
    + rewrite !members_unregistered; [done|done|]. by rewrite registered_mutate_nodes.
  - by apply members_mutate_nodes_ne.
Qed.

Lemma remove_room_members r :
  room_members r st'
  = if decide (leaveRoom = true ∧ registered k st ∧ k = r)
    then room_members r st ∖ {[x]} else room_members r st.
Proof.
  subst st'. unfold remove_from_stream, registered.
  destruct (jsmap_get k (streams st)) eqn:Hk.
  - destruct leaveRoom; cbn [fst].
    + rewrite room_members_leave. unfold room_members, mutate_nodes; simpl.
      destruct (decide (k = r)) as [->|Hne].
      * rewrite decide_True; [done|]. eauto.
      * rewrite decide_False; [done|]. tauto.
    + rewrite decide_False; [done|]. by intros [? _].
  - cbn [fst]. rewrite decide_False; [done|]. intros (_ & [? ?] & _). done.
Qed.

End RemoveFromStream.

(** ** The invariant of the registries *)

Lemma wf_init : wf init.
Proof.
  split; unfold init, members, registered, room_members; simpl.
  - intros x info s Hx. by rewrite lookup_empty in Hx.
  - intros x s Hx. by apply elem_of_nil in Hx.
  - by intros s [? ?].
  - intros x info Hx. by rewrite lookup_empty in Hx.
  - intros x n Hx. by rewrite lookup_empty in Hx.
  - intros x n Hx. by rewrite lookup_empty in Hx.
  - by intros s x [? ?].
  - intros r x. rewrite lookup_empty; simpl. by rewrite elem_of_empty.
Qed.

(** In a well-formed state the truthiness test on [currentNode.streamId]
    loses nothing: a stream id is never the empty string. *)
Lemma wf_current_streamId st x info s :
  wf st → nodeMap st !! x = Some info → Node.streamId info = Some s →
  current_streamId (Some info) = Some s.
Proof.
  intros Hwf Hx Hs. unfold current_streamId. rewrite Hs.
  case_decide as He; [|done]. subst s.
  pose proof (wf_current st Hwf x info "" Hx Hs) as Hm.
  apply members_registered, (wf_stream_id st Hwf) in Hm. done.
Qed.

Lemma current_streamId_Some o s :
  current_streamId o = Some s →
  ∃ info, o = Some info ∧ Node.streamId info = Some s ∧ s ≠ "".
Proof.
  unfold current_streamId. destruct o as [info|]; [|done].
  destruct (Node.streamId info) as [s'|] eqn:Hs; [|done].
  case_decide; [done|]. intros [= ->]. by exists info.
Qed.

(** A socket is a member of the stream its entry names and of no other. *)
Lemma wf_single st x s1 s2 :
  wf st → x ∈ members s1 st → x ∈ members s2 st → s1 = s2.
Proof.
  intros Hwf H1 H2.
  destruct (wf_member st Hwf x s1 H1) as (i1 & Hx1 & Hs1).
  destruct (wf_member st Hwf x s2 H2) as (i2 & Hx2 & Hs2).
  congruence.
Qed.

Lemma wf_onConnection x uuid st :
  wf st → sockets st !! x = None → String.length x = 20 →
  wf (onConnection x uuid (socket_join x x st)).1.
Proof.
  intros Hwf Hx Hlen.
  assert (nodeMap st !! x = None) as Hn.
  { destruct (nodeMap st !! x) as [info|] eqn:Hi; [|done].
    apply (wf_registered st Hwf) in Hi. congruence. }
  assert (¬ registered x st) as Hr.
  { intros Hr%(wf_stream_id st Hwf). lia. }
  split; unfold onConnection; cbn [fst];
    unfold members, registered; cbn [streams nodeMap sockets set_sockets set_nodeMap socket_join set_rooms];
    fold (members) ; fold registered.
  - intros y info s Hy Hs. destruct (decide (x = y)) as [->|Hne].
    + rewrite lookup_insert_eq in Hy. by simplify_eq.
    + rewrite lookup_insert_ne in Hy by done. by eapply (wf_current st Hwf).
  - intros y s Hy. destruct (wf_member st Hwf y s Hy) as (info & Hi & Hs).
    exists info. rewrite lookup_insert_ne; [done|]. congruence.
  - apply (wf_stream_id st Hwf).
  - intros y info Hy. destruct (decide (x = y)) as [->|Hne].
    + rewrite lookup_insert_eq in Hy. rewrite lookup_insert_eq. by simplify_eq.
    + rewrite lookup_insert_ne in Hy by done. rewrite lookup_insert_ne by done.
      by apply (wf_registered st Hwf).
  - intros y n Hy. destruct (decide (x = y)) as [->|Hne].
    + rewrite lookup_insert_eq in Hy. rewrite lookup_insert_eq. simplify_eq. eauto.
    + rewrite lookup_insert_ne in Hy by done. rewrite lookup_insert_ne by done.
      by apply (wf_live st Hwf).
  - intros y n Hy. destruct (decide (x = y)) as [->|Hne]; [done|].
    rewrite lookup_insert_ne in Hy by done. by eapply (wf_socket_id st Hwf).
  - intros s y Hs.
    change (y ∈ room_members s (socket_join x x st) ↔ y ∈ members s st).
    rewrite room_members_join, decide_False; [by apply (wf_room st Hwf)|].
    intros ->. done.
  - intros r y.
    change (y ∈ room_members r (socket_join x x st) →
            (r = y ∧ is_Some (<[x:=generateNodeId uuid]> (sockets st) !! y)) ∨ registered r st).
    rewrite room_members_join. case_decide as Hrx; [subst r|].
    + rewrite elem_of_union, elem_of_singleton. intros [->|Hy].
      * left. by rewrite lookup_insert_eq.
      * destruct (wf_rooms st Hwf x y Hy) as [[-> _]|?]; [|by right].
        left. by rewrite lookup_insert_eq.
    + intros Hy. destruct (wf_rooms st Hwf r y Hy) as [[-> Hs]|?]; [|by right].
      left. split; [done|]. by rewrite lookup_insert_ne.
Qed.

Lemma wf_streamCreate x data uuid now st st' out :
  wf st → String.length uuid = 36 → jsmap_get uuid (streams st) = None →
  streamCreate x data uuid now st = Done st' out → wf st'.
Proof.
  intros Hwf Hlen Hfresh. unfold streamCreate.
  destruct (negb (object_coercible data)); [done|].
  destruct (negb _ || negb _); intros [= <- <-]; [done|].
  assert (¬ registered uuid st) as Hu by (unfold registered; rewrite Hfresh; by intros [? ?]).
  assert (∀ s, registered s st → uuid ≠ s) as Hne by (intros s Hs ->; done).
  set (new := Stream.mk _ _ _ _ _).
  assert (∀ s, members s (set_streams (jsmap_set uuid new (streams st)) st)
               = if decide (uuid = s) then [] else members s st) as Hm.
  { intros s. unfold members; simpl. rewrite jsmap_get_set. by case_decide. }
  assert (∀ s, registered s (set_streams (jsmap_set uuid new (streams st)) st)
               ↔ uuid = s ∨ registered s st) as Hr.
  { intros s. unfold registered; simpl. rewrite jsmap_get_set.
    case_decide; [split; eauto|]. split; [auto|]. by intros [?|?]. }
  split.
  - intros y info s Hy Hs. rewrite Hm.
    pose proof (wf_current st Hwf y info s Hy Hs) as Hin.
    rewrite decide_False; [done|]. by apply Hne, (members_registered y).
  - intros y s. rewrite Hm. case_decide; [by intros ?%elem_of_nil|].
    apply (wf_member st Hwf).
  - intros s [<-|Hs]%Hr; [done|]. by apply (wf_stream_id st Hwf).
  - apply (wf_registered st Hwf).
  - apply (wf_live st Hwf).
  - apply (wf_socket_id st Hwf).
  - intros s y Hs. rewrite Hm.
    change (room_members s (set_streams (jsmap_set uuid new (streams st)) st))
      with (room_members s st).
    case_decide as Hus; [subst s|].
    + split; [|by intros ?%elem_of_nil]. intros Hy.
      destruct (wf_rooms st Hwf uuid y Hy) as [[-> [n Hn]]|?]; [|done].
      apply (wf_socket_id st Hwf) in Hn. lia.
    + apply (wf_room st Hwf). apply Hr in Hs. by destruct Hs.
  - intros r y Hy. rewrite Hr.
    destruct (wf_rooms st Hwf r y Hy) as [?|?]; [by left|right; by right].
Qed.

Section Detached.
Variables (x : string) (leaveRoom : bool) (st : State).

Lemma detached_nodeMap : nodeMap (detached x leaveRoom st).1 = nodeMap st.
Proof. unfold detached. destruct (current_streamId _); [apply remove_nodeMap|done]. Qed.

Lemma detached_sockets : sockets (detached x leaveRoom st).1 = sockets st.
Proof. unfold detached. destruct (current_streamId _); [apply remove_sockets|done]. Qed.

Lemma detached_registered s : registered s (detached x leaveRoom st).1 ↔ registered s st.
Proof. unfold detached. destruct (current_streamId _); [apply remove_registered|done]. Qed.

Lemma detached_rooms_keep r :
  leaveRoom = false → room_members r (detached x leaveRoom st).1 = room_members r st.
Proof.
  intros ->. unfold detached. destruct (current_streamId _); [|done].
  rewrite remove_room_members, decide_False; [done|]. by intros [? _].
Qed.

Hypothesis Hcur : ∀ s, x ∈ members s st → current_streamId (nodeMap st !! x) = Some s.

Lemma detached_members s y :
  y ∈ members s (detached x leaveRoom st).1 ↔ y ≠ x ∧ y ∈ members s st.
Proof.
  unfold detached. destruct (current_streamId _) as [old|] eqn:Hc; cbn [fst].
  - rewrite remove_members. case_decide as Hos; [by rewrite elem_of_set_delete|].
    split; [|tauto]. intros Hy. split; [|done]. intros ->.
    apply Hcur in Hy. congruence.
  - split; [|tauto]. intros Hy. split; [|done]. intros ->.
    apply Hcur in Hy. congruence.
Qed.

Lemma detached_rooms_leave r y :
  leaveRoom = true →
  (∀ s, registered s st → x ∈ room_members s st ↔ x ∈ members s st) →
  y ∈ room_members r (detached x leaveRoom st).1
  ↔ y ∈ room_members r st ∧ ¬ (y = x ∧ registered r st).
Proof.
  intros -> Hroom. unfold detached.
  destruct (current_streamId _) as [old|] eqn:Hc; cbn [fst].
  - rewrite remove_room_members. case_decide as Hd.
    + destruct Hd as (_ & Hr & ->).
      rewrite elem_of_difference, elem_of_singleton. tauto.
    + split; [|tauto]. intros Hy. split; [done|]. intros [-> Hr].
      apply Hroom in Hy; [|done]. apply Hcur in Hy.
      apply Hd. split_and!; [done|congruence|congruence].
  - split; [|tauto]. intros Hy. split; [done|]. intros [-> Hr].
    apply Hroom in Hy; [|done]. apply Hcur in Hy. congruence.
Qed.
End Detached.

Lemma wf_Hcur st x :
  wf st → ∀ s, x ∈ members s st → current_streamId (nodeMap st !! x) = Some s.
Proof.
  intros Hwf s Hm. destruct (wf_member st Hwf x s Hm) as (info & Hx & Hs).
  rewrite Hx. by eapply wf_current_streamId.
Qed.

(** ** The handlers, case by case *)

Lemma streamLeave_cases x nodeId st :
  streamLeave x nodeId st
  = match current_streamId (nodeMap st !! x) with
    | Some _ => Done (left x nodeId st) ((detached x true st).2 ++ [ToSocket x LeaveResultOk])
    | None => Done st [ToSocket x LeaveResultOk]
    end.
Proof.
  unfold streamLeave, left, detached.
  destruct (current_streamId _) as [cur|]; [|done].
  by destruct (remove_from_stream x cur true st).
Qed.

Lemma streamJoin_cases x nodeId data st :
  object_coercible data = true →
  streamJoin x nodeId data st
  = match streams_get (get_prop "streamId" data) st with
    | None => Done st [ToSocket x (JoinResultError NotFound)]
    | Some (k, stream) =>
        if strict_eq (Stream.passwordHash stream) (get_prop "passwordHash" data)
        then Done (joined x nodeId k st)
               ((detached x true st).2
                ++ [ToSocket x (JoinResultOk k (Stream.name stream));
                    broadcastNodeList k (joined x nodeId k st)])
        else Done st [ToSocket x (JoinResultError Unauthorized)]
    end.
Proof.
  intros Hd. unfold streamJoin. rewrite Hd. cbn [negb].
  destruct (streams_get _ st) as [[k stream]|]; [|done].
  destruct (strict_eq _ _); cbn [negb]; [|done].
  unfold joined, detached.
  destruct (current_streamId _) as [cur|]; [|done].
  by destruct (remove_from_stream x cur true st).
Qed.

Lemma onDisconnect_cases x st :
  onDisconnect x st
  = match nodeMap st !! x with
    | Some _ => (disconnected x st, (detached x false st).2)
    | None => (st, [])
    end.
Proof.
  unfold onDisconnect, disconnected, detached.
  destruct (nodeMap st !! x) as [info|]; [|done].
  destruct (current_streamId _) as [cur|]; [|done].
  by destruct (remove_from_stream x cur false st).
Qed.

Lemma streams_get_Some v st k stream :
  streams_get v st = Some (k, stream) →
  v = JStr k ∧ jsmap_get k (streams st) = Some stream.
Proof.
  unfold streams_get. destruct v; try done.
  destruct (jsmap_get s (streams st)) eqn:Hs; [|done].
  by intros [= <- <-].
Qed.

Lemma wf_left x nodeId st :
  wf st → sockets st !! x = Some nodeId → wf (left x nodeId st).
Proof.
  intros Hwf Hx. pose proof (wf_Hcur st x Hwf) as Hcur.
  pose proof (detached_nodeMap x true st) as Hn.
  pose proof (detached_sockets x true st) as Hs.
  pose proof (detached_registered x true st) as Hr.
  pose proof (detached_members x true st Hcur) as Hm.
  pose proof (λ r y, detached_rooms_leave x true st Hcur r y eq_refl
                       (λ s Hs, wf_room st Hwf s x Hs)) as Hrm.
  unfold left. set (st1 := (detached x true st).1) in *.
  split.
  - intros y info s Hy Hsi. obs_simpl. rewrite Hn in Hy. apply Hm.
    destruct (decide (x = y)) as [->|Hne].
    + rewrite lookup_insert_eq in Hy. by simplify_eq.
    + rewrite lookup_insert_ne in Hy by done.
      split; [done|]. by eapply (wf_current st Hwf).
  - intros y s Hy. obs_simpl. apply Hm in Hy as [Hne Hy].
    rewrite Hn, lookup_insert_ne by done. by apply (wf_member st Hwf).
  - intros s Hsr. obs_simpl. apply Hr in Hsr. by apply (wf_stream_id st Hwf).
  - intros y info Hy. obs_simpl. rewrite Hn in Hy. rewrite Hs.
    destruct (decide (x = y)) as [->|Hne].
    + rewrite lookup_insert_eq in Hy. by simplify_eq.
    + rewrite lookup_insert_ne in Hy by done. by apply (wf_registered st Hwf).
  - intros y n Hy. obs_simpl. rewrite Hs in Hy. rewrite Hn.
    destruct (decide (x = y)) as [->|Hne].
    + rewrite lookup_insert_eq. simplify_eq. eauto.
    + rewrite lookup_insert_ne by done. by apply (wf_live st Hwf).
  - intros y n Hy. obs_simpl. rewrite Hs in Hy. by eapply (wf_socket_id st Hwf).
  - intros s y Hsr. obs_simpl. apply Hr in Hsr.
    rewrite Hrm, Hm, (wf_room st Hwf s y Hsr). tauto.
  - intros r y Hy. obs_simpl. apply Hrm in Hy as [Hy _].
    rewrite Hs, Hr. by apply (wf_rooms st Hwf).
Qed.

Lemma wf_joined x nodeId k st :
  wf st → sockets st !! x = Some nodeId → registered k st → wf (joined x nodeId k st).
Proof.
  intros Hwf Hx Hk. pose proof (wf_Hcur st x Hwf) as Hcur.
  pose proof (detached_nodeMap x true st) as Hn.
  pose proof (detached_sockets x true st) as Hs.
  pose proof (detached_registered x true st) as Hr.
  pose proof (detached_members x true st Hcur) as Hm.
  pose proof (λ r y, detached_rooms_leave x true st Hcur r y eq_refl
                       (λ s Hs, wf_room st Hwf s x Hs)) as Hrm.
  unfold joined. set (st1 := (detached x true st).1) in *.
  assert (∀ s y, y ∈ members s (mutate_nodes (set_add x) k st1)
                 ↔ (y = x ∧ s = k) ∨ (y ≠ x ∧ y ∈ members s st)) as Hm2.
  { intros s y. destruct (decide (k = s)) as [<-|Hne].
    - rewrite members_mutate_nodes_eq by (by apply Hr).
      rewrite elem_of_set_add, Hm. tauto.
    - rewrite members_mutate_nodes_ne, Hm by done. split; [tauto|].
      intros [[_ ->]|?]; [done|tauto]. }
  assert (∀ r y, y ∈ room_members r (socket_join x k (mutate_nodes (set_add x) k st1))
                 ↔ (y = x ∧ r = k)
                   ∨ (y ∈ room_members r st ∧ ¬ (y = x ∧ registered r st))) as Hrm2.
  { intros r y. rewrite room_members_join. obs_simpl.
    case_decide as Hkr; [subst r|].
    - rewrite elem_of_union, elem_of_singleton, Hrm. tauto.
    - rewrite Hrm. split; [tauto|]. intros [[_ ->]|?]; [done|tauto]. }
  split.
  - intros y info s Hy Hsi. obs_simpl. rewrite Hn in Hy. apply Hm2.
    destruct (decide (x = y)) as [->|Hne].
    + rewrite lookup_insert_eq in Hy. simplify_eq. simpl in Hsi. left. by simplify_eq.
    + rewrite lookup_insert_ne in Hy by done.
      right. split; [done|]. by eapply (wf_current st Hwf).
  - intros y s Hy. obs_simpl. rewrite Hn. apply Hm2 in Hy as [[-> ->]|[Hne Hy]].
    + rewrite lookup_insert_eq. eauto.
    + rewrite lookup_insert_ne by done. by apply (wf_member st Hwf).
  - intros s Hsr. obs_simpl. apply registered_mutate_nodes, Hr in Hsr.
    by apply (wf_stream_id st Hwf).
  - intros y info Hy. obs_simpl. rewrite Hn in Hy. rewrite Hs.
    destruct (decide (x = y)) as [->|Hne].
    + rewrite lookup_insert_eq in Hy. by simplify_eq.
    + rewrite lookup_insert_ne in Hy by done. by apply (wf_registered st Hwf).
  - intros y n Hy. obs_simpl. rewrite Hs in Hy. rewrite Hn.
    destruct (decide (x = y)) as [->|Hne].
    + rewrite lookup_insert_eq. simplify_eq. eauto.
    + rewrite lookup_insert_ne by done. by apply (wf_live st Hwf).
  - intros y n Hy. obs_simpl. rewrite Hs in Hy. by eapply (wf_socket_id st Hwf).
  - intros s y Hsr. obs_simpl. apply registered_mutate_nodes, Hr in Hsr.
    rewrite Hrm2, Hm2, (wf_room st Hwf s y Hsr). tauto.
  - intros r y Hy. obs_simpl. apply Hrm2 in Hy.
    rewrite Hs, registered_mutate_nodes, Hr.
    destruct Hy as [[-> ->]|[Hy _]]; [by right|]. by apply (wf_rooms st Hwf).
Qed.

Lemma wf_disconnected x st :
  wf st → wf (disconnected x (socket_close x st)).
Proof.
  intros Hwf. set (st0 := socket_close x st).
  assert (∀ s, x ∈ members s st0 → current_streamId (nodeMap st0 !! x) = Some s) as Hcur.
  { subst st0. obs_simpl. by apply wf_Hcur. }
  pose proof (detached_nodeMap x false st0) as Hn.
  pose proof (detached_sockets x false st0) as Hs.
  pose proof (detached_registered x false st0) as Hr.
  pose proof (detached_members x false st0 Hcur) as Hm.
  pose proof (λ r, detached_rooms_keep x false st0 r eq_refl) as Hrm.
  unfold disconnected. set (st1 := (detached x false st0).1) in *.
  subst st0. setoid_rewrite room_members_close in Hrm. obs_simpl.
  split.
  - intros y info s Hy Hsi. obs_simpl. rewrite Hn in Hy.
    apply lookup_delete_Some in Hy as [Hne Hy].
    apply Hm. split; [done|]. by eapply (wf_current st Hwf).
  - intros y s Hy. obs_simpl. apply Hm in Hy as [Hne Hy].
    rewrite Hn, lookup_delete_ne by done. by apply (wf_member st Hwf).
  - intros s Hsr. obs_simpl. apply Hr in Hsr. by apply (wf_stream_id st Hwf).
  - intros y info Hy. obs_simpl. rewrite Hn in Hy. rewrite Hs.
    apply lookup_delete_Some in Hy as [Hne Hy].
    rewrite lookup_delete_ne by done. by apply (wf_registered st Hwf).
  - intros y n Hy. obs_simpl. rewrite Hs in Hy. rewrite Hn.
    apply lookup_delete_Some in Hy as [Hne Hy].
    rewrite lookup_delete_ne by done. by apply (wf_live st Hwf).
  - intros y n Hy. obs_simpl. rewrite Hs in Hy.
    apply lookup_delete_Some in Hy as [Hne Hy]. by eapply (wf_socket_id st Hwf).
  - intros s y Hsr. obs_simpl. apply Hr in Hsr.
    rewrite Hrm, Hm, elem_of_difference, elem_of_singleton, (wf_room st Hwf s y Hsr).
    tauto.
  - intros r y Hy. obs_simpl. rewrite Hrm, elem_of_difference, elem_of_singleton in Hy.
    destruct Hy as [Hy Hne]. rewrite Hs, Hr.
    destruct (wf_rooms st Hwf r y Hy) as [[-> Hl]|?]; [|by right].
    left. split; [done|]. by rewrite lookup_delete_ne.
Qed.

(** ** Every operation keeps the invariant *)

Lemma logPush_state x data now st : final_state (logPush x data now st) = st.
Proof.
  unfold logPush.
  destruct (nodeMap st !! x); [|done].
  destruct (current_streamId _); [|done].
  destruct (negb (object_coercible data)); [done|].
  by destruct (negb (truthy _)).
Qed.

Lemma wf_step st ev st' out :
  wf st → env_ok st ev → step st ev = Some (Done st' out) → wf st'.
Proof.
  intros Hwf Henv Hstep. destruct ev as [x u|x data u now|x data|x|x data now|x|x];
    simpl in Hstep.
  - destruct (sockets st !! x) eqn:Hx; [done|].
    destruct (onConnection x u (socket_join x x st)) as [st1 out1] eqn:Hc.
    injection Hstep as <- <-.
    replace st1 with (onConnection x u (socket_join x x st)).1 by (by rewrite Hc).
    by apply wf_onConnection.
  - destruct (sockets st !! x) eqn:Hx; [|done]. simpl in Hstep.
    destruct Henv as [Hlen Hfresh]. simplify_eq. by eapply wf_streamCreate.
  - destruct (sockets st !! x) as [n|] eqn:Hx; [|done]. simpl in Hstep.
    destruct (object_coercible data) eqn:Hd.
    + rewrite streamJoin_cases in Hstep by done.
      destruct (streams_get _ st) as [[k stream]|] eqn:Hk; [|by simplify_eq].
      destruct (strict_eq _ _); [|by simplify_eq].
      apply streams_get_Some in Hk as [_ Hk]. simplify_eq.
      apply wf_joined; [done|done|]. unfold registered. eauto.
    + unfold streamJoin in Hstep. rewrite Hd in Hstep. done.
  - destruct (sockets st !! x) as [n|] eqn:Hx; [|done]. simpl in Hstep.
    rewrite streamLeave_cases in Hstep.
    destruct (current_streamId _); simplify_eq; [|done]. by apply wf_left.
  - destruct (sockets st !! x) as [n|] eqn:Hx; [|done]. simpl in Hstep.
    pose proof (logPush_state x data now st) as Hp.
    injection Hstep as Hstep. rewrite Hstep in Hp. simpl in Hp. by subst.
  - destruct (sockets st !! x) as [n|] eqn:Hx; [|done]. simpl in Hstep.
    unfold streamList in Hstep. by simplify_eq.
  - destruct (sockets st !! x) as [n|] eqn:Hx; [|done]. simpl in Hstep.
    rewrite onDisconnect_cases in Hstep. obs_simpl.
    destruct (wf_live st Hwf x n Hx) as (info & Hi & _). rewrite Hi in Hstep.
    simplify_eq. by apply wf_disconnected.
Qed.

Lemma reachable_wf st : reachable st → wf st.
Proof.
  induction 1 as [|st ev st' out _ IH Henv Hstep]; [apply wf_init|].
  by eapply wf_step.
Qed.

(** ** Traces *)

Lemma valid_trace_reachable evs : ∀ st,
  reachable st → valid_trace st evs → reachable (run st evs).1.
Proof.
  induction evs as [|ev evs IH]; intros st Hst Hv; [done|].
  simpl in *. destruct Hv as [Henv Hv].
  destruct (step st ev) as [[st' out|]|] eqn:Hstep; try done.
  specialize (IH st' (reachable_step _ _ _ _ Hst Henv Hstep) Hv).
  by destruct (run st' evs).
Qed.

Lemma scenario_reachable : reachable scenario_state.
Proof.
  apply valid_trace_reachable; [apply reachable_init|].
  vm_compute. repeat split.
Qed.

(** ** Membership consistency *)

(** C1: after every completed operation, for every connection in
    [nodeMap], [streamId] is non-null exactly when the connection is in the
    member set of the stream of that id, and the connection is in at most
    one member set. *)
Theorem membership_consistent st : reachable st → consistent st.
Proof.
  intros Hwf%reachable_wf x info Hx. split.
  - intros s. split.
    + by apply (wf_current st Hwf).
    + intros (info' & Hx' & Hs)%(wf_member st Hwf). congruence.
  - intros s1 s2. by apply wf_single.
Qed.

Lemma membership_consistent_witness :
  reachable scenario_state ∧ consistent scenario_state.
Proof.
  split; [apply scenario_reachable|].
  apply (membership_consistent scenario_state), scenario_reachable.
Defined.

(** ** Join *)

(** C2: a join request [{streamId, passwordHash}] succeeds exactly when
    [streams] has a stream under [streamId] and the stored [passwordHash]
    is strictly equal ([===]) to the supplied one (for a string token:
    the same string).  With no such stream it fails with "Stream not
    found", with a different token it fails with "Invalid access key", and
    in both cases the whole state, member sets and [nodeMap] included, is
    unchanged.  Whatever the data, a join that does not succeed leaves the
    state as it was. *)
Theorem join_authorization x nodeId data st :
  let streamId := get_prop "streamId" data in
  let token := get_prop "passwordHash" data in
  let result := streamJoin x nodeId data st in
  (¬ join_succeeds x result → final_state result = st)
  ∧ (object_coercible data = true →
     (join_succeeds x result
      ↔ ∃ k stream, streams_get streamId st = Some (k, stream)
                    ∧ strict_eq (Stream.passwordHash stream) token = true)
     ∧ (streams_get streamId st = None → join_fails NotFound x st result)
     ∧ (∀ k stream, streams_get streamId st = Some (k, stream) →
          strict_eq (Stream.passwordHash stream) token = false →
          join_fails Unauthorized x st result)
     ∧ (∀ k stream t, streams_get streamId st = Some (k, stream) →
          Stream.passwordHash stream = JStr t →
          (strict_eq (Stream.passwordHash stream) token = true ↔ token = JStr t))).
Proof.
  intros streamId token result. subst result. split.
  { destruct (object_coercible data) eqn:Hd.
    - rewrite streamJoin_cases by done. fold streamId token.
      destruct (streams_get streamId st) as [[k stream]|]; [|done].
      destruct (strict_eq _ _); [|done]. intros []. exists k, (Stream.name stream).
      cbn [emitted]. rewrite elem_of_app. right. apply list_elem_of_here.
    - unfold streamJoin. by rewrite Hd. }
  intros Hd. rewrite streamJoin_cases by done. fold streamId token.
  unfold join_succeeds, join_fails.
  destruct (streams_get streamId st) as [[k stream]|] eqn:Hk.
  - destruct (strict_eq (Stream.passwordHash stream) token) eqn:He.
    + split_and!.
      * split; [eauto|]. intros _. exists k, (Stream.name stream).
        cbn [emitted]. rewrite elem_of_app. right. apply list_elem_of_here.
      * done.
      * intros k' stream' [= <- <-]. congruence.
      * intros k' stream' t [= <- <-] Ht. rewrite Ht in He |- *.
        apply strict_eq_JStr.
    + split_and!.
      * split.
        -- intros (k' & name & Hin). cbn [emitted] in Hin.
           apply list_elem_of_singleton in Hin. discriminate.
        -- intros (k' & stream' & [= <- <-] & He'). congruence.
      * done.
      * done.
      * intros k' stream' t [= <- <-] Ht. rewrite Ht. apply strict_eq_JStr.
  - split_and!; try done. split.
    + intros (k' & name & Hin). cbn [emitted] in Hin.
      apply list_elem_of_singleton in Hin. discriminate.
    + by intros (k' & stream' & ? & _).
Qed.

Lemma join_authorization_witness :
  object_coercible (join_alpha "wrong") = true
  ∧ join_fails Unauthorized socketB scenario_state
      (streamJoin socketB (generateNodeId uuidB) (join_alpha "wrong") scenario_state).
Proof.
  split; [reflexivity|].
  refine (proj1 (proj2 (proj2
    (proj2 (join_authorization socketB (generateNodeId uuidB) (join_alpha "wrong")
              scenario_state) eq_refl))) streamS1 _ _ _); vm_compute; reflexivity.
Defined.

(** ** Create *)

Lemma jsmap_set_fresh {V} k (v : V) (m : JsMap V) :
  jsmap_get k m = None → jsmap_set k v m = m ++ [(k, v)].
Proof.
  induction m as [|[k0 v0] m IH]; simpl; [done|].
  case_decide; [done|]. intros Hm. by rewrite IH.
Qed.

(** A field that is missing, or present and the empty string, is falsy;
    a non-empty string is truthy. *)
Lemma truthy_missing_or_empty v :
  v = JUndefined ∨ v = JStr "" → truthy v = false.
Proof. by intros [->| ->]. Qed.

Lemma truthy_nonempty_string s : s ≠ "" → truthy (JStr s) = true.
Proof.
  intros Hs. destruct (truthy (JStr s)) eqn:Ht; [done|].
  by apply truthy_JStr in Ht.
Qed.

(** C5: a create request [{streamName, passwordHash}] whose name or token
    is missing or empty (falsy: [undefined], [null], the empty string, and
    also [false] and [0]) fails with "Missing required parameters" and
    leaves the state as it was.  Every other request succeeds: it answers
    with the id [uuidv4()] returned, and stores under that id a stream with
    the supplied name and token and an empty member set; a fresh id is
    appended to [streams], whatever names are already there; no other
    stream, no [nodeMap] entry and no room changes, so the creator is a
    member of nothing new.  Whatever the data, a create that does not
    succeed leaves the state as it was. *)
Theorem create_stream x data uuid now st :
  let streamName := get_prop "streamName" data in
  let token := get_prop "passwordHash" data in
  let result := streamCreate x data uuid now st in
  (¬ create_succeeds x result → final_state result = st)
  ∧ (object_coercible data = true →
     (truthy streamName = false ∨ truthy token = false →
        result = Done st [ToSocket x (CreateResultError InvalidRequest)])
     ∧ (truthy streamName = true → truthy token = true →
        ∃ st', result = Done st' [ToSocket x (CreateResultOk uuid streamName)]
          ∧ jsmap_get uuid (streams st') = Some (Stream.mk uuid streamName token now [])
          ∧ members uuid st' = []
          ∧ (jsmap_get uuid (streams st) = None →
               streams st' = streams st ++ [(uuid, Stream.mk uuid streamName token now [])])
          ∧ (∀ k, k ≠ uuid → jsmap_get k (streams st') = jsmap_get k (streams st))
          ∧ nodeMap st' = nodeMap st
          ∧ sockets st' = sockets st
          ∧ rooms st' = rooms st)).
Proof.
  intros streamName token result. subst result. split.
  { unfold streamCreate. destruct (negb (object_coercible data)); [done|].
    fold streamName token. destruct (negb _ || negb _); [done|].
    intros []. exists uuid, streamName. apply list_elem_of_here. }
  intros Hd.
  unfold streamCreate. rewrite Hd. cbn [negb]. fold streamName token. split.
  - intros [-> | ->]; [done|]. by rewrite orb_true_r.
  - intros -> ->. cbn [negb orb]. eexists. split; [done|].
    unfold members. cbn [streams set_streams nodeMap sockets rooms].
    rewrite jsmap_get_set, decide_True by done. split_and!; try done.
    + apply jsmap_set_fresh.
    + intros k Hk. by rewrite jsmap_get_set, decide_False.
Qed.

Lemma create_stream_witness :
  object_coercible create_alpha = true
  ∧ ∃ st', streamCreate socketA create_alpha streamS1 1700000000000 init
           = Done st' [ToSocket socketA (CreateResultOk streamS1 (JStr "alpha"))]
         ∧ members streamS1 st' = [].
Proof.
  split; [reflexivity|].
  destruct (proj2 (proj2 (create_stream socketA create_alpha streamS1 1700000000000 init)
                       eq_refl) eq_refl eq_refl) as (st' & Hres & _ & Hm & _).
  exists st'. split; [exact Hres|exact Hm].
Defined.

(** ** Push *)

Lemma wf_has_membership st x :
  wf st → has_membership x st ↔ is_Some (current_streamId (nodeMap st !! x)).
Proof.
  intros Hwf. split.
  - intros [s Hs]. rewrite (wf_Hcur st x Hwf s Hs). eauto.
  - intros [s (info & Hx & Hs & _)%current_streamId_Some].
    exists s. by apply (wf_current st Hwf x info).
Qed.

Lemma logPush_no_membership x data now st :
  current_streamId (nodeMap st !! x) = None →
  logPush x data now st = Done st [ToSocket x (PushResultError NoStream)].
Proof.
  intros Hc. unfold logPush. rewrite Hc. by destruct (nodeMap st !! x).
Qed.

Lemma logPush_membership x data now st s :
  current_streamId (nodeMap st !! x) = Some s →
  ∃ info, nodeMap st !! x = Some info ∧
    logPush x data now st
    = if object_coercible data then
        if truthy (get_prop "payload" data) then
          Done st
            [ToRoom s (elements (room_members s st))
               (LogBroadcast s (Node.nodeId info) (get_prop "payload" data)
                  (with_default (JStr "INFO") (get_prop "level" data)) now);
             ToSocket x PushResultOk]
        else Done st [ToSocket x (PushResultError EmptyPayload)]
      else Throws st [].
Proof.
  intros Hc. destruct (current_streamId_Some _ _ Hc) as (info & Hx & _).
  exists info. split; [done|]. unfold logPush. rewrite Hc, Hx.
  destruct (object_coercible data); [|done].
  by destruct (truthy _).
Qed.

(** C6: a push fails with "Not connected to any stream" exactly when the
    sender is in no member set; for a sender that is in one, a request
    [{payload, level?}] fails with "Empty payload" exactly when the payload
    is empty or absent (falsy).  A push never changes the state, and one
    that does not succeed broadcasts nothing. *)
Theorem push_failures x data now st :
  reachable st →
  let result := logPush x data now st in
  (push_fails NoStream x st result ↔ ¬ has_membership x st)
  ∧ (has_membership x st → object_coercible data = true →
     (push_fails EmptyPayload x st result ↔ truthy (get_prop "payload" data) = false))
  ∧ final_state result = st
  ∧ (¬ push_succeeds x result → room_emits is_log_broadcast (emitted result) = []).
Proof.
  intros Hwf%reachable_wf result. subst result.
  rewrite (wf_has_membership st x Hwf). unfold push_fails, push_succeeds.
  destruct (current_streamId (nodeMap st !! x)) as [s|] eqn:Hc.
  - destruct (logPush_membership x data now st s Hc) as (info & Hx & ->).
    split_and!.
    + split; [|by intros []]. destruct (object_coercible data); [|done].
      by destruct (truthy _).
    + intros _ ->. destruct (truthy _); [|done]. split; discriminate.
    + destruct (object_coercible data); [|done]. by destruct (truthy _).
    + destruct (object_coercible data); [|done].
      destruct (truthy _); [|done]. intros []. cbn [emitted].
      apply list_elem_of_further, list_elem_of_here.
  - rewrite logPush_no_membership by done. split_and!; try done.
Qed.

Lemma push_failures_witness :
  reachable scenario_state
  ∧ push_fails EmptyPayload socketA scenario_state
      (logPush socketA (JObj [("payload", JStr "")]) 1700000000500 scenario_state).
Proof.
  split; [apply scenario_reachable|].
  refine (proj2 (proj1 (proj2
    (push_failures socketA (JObj [("payload", JStr "")]) 1700000000500
       scenario_state scenario_reachable)) _ eq_refl) eq_refl).
  exists streamS1. vm_compute. apply list_elem_of_here.
Defined.

(** C10: a push from a connection with no stream membership fails with
    "Not connected to any stream" whatever the data is, an empty, absent
    or malformed payload included, since the membership test comes first;
    so "Empty payload" is only ever sent to a member of a stream. *)
Theorem push_checks_membership_first x now st :
  reachable st →
  (¬ has_membership x st →
     ∀ data, push_fails NoStream x st (logPush x data now st))
  ∧ (∀ data, ToSocket x (PushResultError EmptyPayload) ∈ emitted (logPush x data now st) →
       has_membership x st).
Proof.
  intros Hwf%reachable_wf. rewrite !(wf_has_membership st x Hwf).
  destruct (current_streamId (nodeMap st !! x)) as [s|] eqn:Hc.
  - split.
    + intros Hno. destruct Hno. by eexists.
    + intros data _. apply (wf_has_membership st x Hwf). rewrite Hc. by eexists.
  - split.
    + intros _ data. by apply logPush_no_membership.
    + intros data. rewrite logPush_no_membership by done. cbn [emitted].
      rewrite list_elem_of_singleton. discriminate.
Qed.

Lemma push_checks_membership_first_witness :
  reachable init
  ∧ push_fails NoStream socketA init (logPush socketA JUndefined 1700000000500 init)
  ∧ push_fails NoStream socketA init
      (logPush socketA (JObj [("payload", JStr "")]) 1700000000500 init).
Proof.
  split; [apply reachable_init|].
  assert (¬ has_membership socketA init) as Hno.
  { intros [s Hs]. vm_compute in Hs. by apply elem_of_nil in Hs. }
  pose proof (proj1 (push_checks_membership_first socketA 1700000000500 init
                       reachable_init) Hno) as Hpush.
  split; apply Hpush.
Defined.

Lemma deliver_NoDup keep y m (l : list string) :
  NoDup l →
  flat_map (deliver keep y m) l
  = if decide (y ∈ l) then (if keep m then [m] else []) else [].
Proof.
  induction 1 as [|z l Hz Hl IH]; [done|].
  cbn [flat_map]. rewrite IH. unfold deliver at 1.
  destruct (decide (z = y)) as [->|Hne].
  - rewrite (decide_True (P := y ∈ y :: l)) by apply list_elem_of_here.
    rewrite (decide_False (P := y ∈ l)) by done. by rewrite app_nil_r.
  - destruct (decide (y ∈ l)) as [Hy|Hy].
    + rewrite (decide_True (P := y ∈ z :: l)); [done|]. by apply list_elem_of_further.
    + rewrite (decide_False (P := y ∈ z :: l)); [done|].
      rewrite not_elem_of_cons. split; [congruence|done].
Qed.

(** C3: when a push succeeds, the sender is a member of the stream [s] its
    entry names, and every socket receives the log broadcast once if it is
    in the member set of [s] at that moment and not at all otherwise; the
    message carries [s], the sender's [nodeId] (the one its connection was
    given), the payload, the level and the value of [Date.now()].  The
    level is the [level] property of the request whenever that is not
    [undefined], whatever value it is, and ["INFO"] when it is [undefined]
    or missing. *)
Theorem push_fanout x data now st :
  reachable st →
  push_succeeds x (logPush x data now st) →
  ∃ info s level,
    nodeMap st !! x = Some info
    ∧ sockets st !! x = Some (Node.nodeId info)
    ∧ Node.streamId info = Some s
    ∧ x ∈ members s st
    ∧ (get_prop "level" data ≠ JUndefined → level = get_prop "level" data)
    ∧ (get_prop "level" data = JUndefined → level = JStr "INFO")
    ∧ ∀ y,
        received is_log_broadcast y (emitted (logPush x data now st))
        = if decide (y ∈ members s st)
          then [LogBroadcast s (Node.nodeId info) (get_prop "payload" data) level now]
          else [].
Proof.
  intros Hwf%reachable_wf. unfold push_succeeds.
  destruct (current_streamId (nodeMap st !! x)) as [s|] eqn:Hc.
  - destruct (logPush_membership x data now st s Hc) as (info & Hx & ->).
    destruct (current_streamId_Some _ _ Hc) as (info' & Hx' & Hs & _).
    rewrite Hx in Hx'. injection Hx' as <-.
    pose proof (wf_current st Hwf x info s Hx Hs) as Hm.
    destruct (object_coercible data); [|by intros ?%elem_of_nil].
    destruct (truthy _).
    + intros _.
      exists info, s, (with_default (JStr "INFO") (get_prop "level" data)).
      split_and!; try done.
      { by apply (wf_registered st Hwf). }
      { by destruct (get_prop "level" data). }
      { by intros ->. }
      intros y. cbn [emitted received flat_map].
      rewrite deliver_NoDup by apply NoDup_elements.
      unfold deliver. cbn [is_log_broadcast]. rewrite !app_nil_r.
      replace (if decide (x = y) then [] else []) with (@nil Msg) by (by case_decide).
      rewrite app_nil_r.
      apply members_registered in Hm.
      destruct (decide (y ∈ members s st)) as [Hy|Hy].
      * rewrite decide_True; [done|].
        by apply elem_of_elements, (wf_room st Hwf).
      * rewrite decide_False; [done|].
        by rewrite elem_of_elements, (wf_room st Hwf).
    + cbn [emitted]. rewrite list_elem_of_singleton. discriminate.
  - rewrite logPush_no_membership by done. cbn [emitted].
    rewrite list_elem_of_singleton. discriminate.
Qed.

Lemma push_fanout_witness :
  reachable scenario_state
  ∧ push_succeeds socketA (logPush socketA push_p1 1700000000500 scenario_state)
  ∧ received is_log_broadcast socketB
      (emitted (logPush socketA push_p1 1700000000500 scenario_state))
    = [LogBroadcast streamS1 (generateNodeId uuidA) (JStr "p1") (JStr "INFO")
         1700000000500]
  ∧ push_succeeds socketB (logPush socketB push_warn 1700000000900 scenario_state)
  ∧ received is_log_broadcast socketA
      (emitted (logPush socketB push_warn 1700000000900 scenario_state))
    = [LogBroadcast streamS1 (generateNodeId uuidB) (JStr "p2") (JStr "WARN")
         1700000000900].
Proof.
  assert (push_succeeds socketA (logPush socketA push_p1 1700000000500 scenario_state))
    as Hok by (vm_compute; apply list_elem_of_further, list_elem_of_here).
  assert (push_succeeds socketB (logPush socketB push_warn 1700000000900 scenario_state))
    as Hok' by (vm_compute; apply list_elem_of_further, list_elem_of_here).
  split; [apply scenario_reachable|]. split; [exact Hok|].
  destruct (push_fanout socketA push_p1 1700000000500 scenario_state
              scenario_reachable Hok)
    as (info & s & level & Hx & _ & Hs & _ & _ & Hdef & Hrecv).
  destruct (push_fanout socketB push_warn 1700000000900 scenario_state
              scenario_reachable Hok')
    as (info' & s' & level' & Hx' & _ & Hs' & _ & Hlev & _ & Hrecv').
  vm_compute in Hx. injection Hx as <-.
  vm_compute in Hs. injection Hs as <-.
  vm_compute in Hx'. injection Hx' as <-.
  vm_compute in Hs'. injection Hs' as <-.
  rewrite (Hdef eq_refl) in Hrecv.
  rewrite (Hlev ltac:(discriminate)) in Hrecv'.
  split_and!.
  - rewrite Hrecv. rewrite decide_True; [reflexivity|].
    vm_compute. apply list_elem_of_further, list_elem_of_here.
  - exact Hok'.
  - rewrite Hrecv'. rewrite decide_True; [reflexivity|].
    vm_compute. apply list_elem_of_here.
Defined.

(** ** Disconnect *)

(** C8: running the disconnect handler a second time changes nothing and
    emits nothing, so two runs end in the state one run ends in.  The
    first run drops the connection's [nodeMap] entry and takes the
    connection out of the member set of the stream the entry named; over
    both runs the node list of that stream is broadcast once (and nothing
    is broadcast when the entry named no stream). *)
Theorem disconnect_idempotent x st :
  let first := onDisconnect x st in
  let second := onDisconnect x (fst first) in
  fst second = fst first
  ∧ snd second = []
  ∧ nodeMap (fst first) !! x = None
  ∧ match current_streamId (nodeMap st !! x) with
    | Some current =>
        (x ∉ members current (fst first))
        ∧ (registered current st →
           ∃ recipients nodes,
             snd first ++ snd second
             = [ToRoom current recipients (NodeList current nodes)])
    | None => snd first ++ snd second = []
    end.
Proof.
  intros first second.
  assert (nodeMap (fst first) !! x = None) as Hgone.
  { subst first. rewrite onDisconnect_cases.
    destruct (nodeMap st !! x) eqn:Hx; [|done].
    unfold disconnected. cbn [fst nodeMap set_nodeMap]. apply lookup_delete_eq. }
  assert (second = (fst first, [])) as Hsecond.
  { subst second. rewrite onDisconnect_cases. by rewrite Hgone. }
  rewrite Hsecond. cbn [fst snd]. rewrite app_nil_r. split_and!; try done.
  subst first. rewrite onDisconnect_cases.
  destruct (nodeMap st !! x) as [info|] eqn:Hx; [|done].
  unfold disconnected, detached. rewrite Hx. cbn [fst snd].
  destruct (current_streamId (Some info)) as [current|]; [|done].
  obs_simpl. split.
  - rewrite remove_members, decide_True by done.
    rewrite elem_of_set_delete. by intros [? _].
  - intros [stream Hs]. unfold remove_from_stream. rewrite Hs. cbn [snd].
    unfold broadcastNodeList. eauto.
Qed.

(** ** Streams are never removed *)

Lemma step_registered st ev o s :
  step st ev = Some o → registered s st → registered s (final_state o).
Proof.
  intros Hstep Hs.
  destruct ev as [x u|x data u now|x data|x|x data now|x|x]; simpl in Hstep.
  - destruct (sockets st !! x); [done|]. by simplify_eq.
  - destruct (sockets st !! x); [|done]. simpl in Hstep. simplify_eq.
    unfold streamCreate. destruct (negb (object_coercible data)); [done|].
    destruct (negb _ || negb _); [done|].
    unfold registered. cbn [final_state streams set_streams].
    rewrite jsmap_get_set. case_decide; [eauto|done].
  - destruct (sockets st !! x) as [n|]; [|done]. simpl in Hstep. simplify_eq.
    destruct (object_coercible data) eqn:Hd.
    + rewrite streamJoin_cases by done.
      destruct (streams_get _ st) as [[k stream]|]; [|done].
      destruct (strict_eq _ _); [|done].
      unfold joined. cbn [final_state]. obs_simpl.
      by rewrite registered_mutate_nodes, detached_registered.
    + unfold streamJoin. by rewrite Hd.
  - destruct (sockets st !! x) as [n|]; [|done]. simpl in Hstep. simplify_eq.
    rewrite streamLeave_cases. destruct (current_streamId _); [|done].
    unfold left. cbn [final_state]. obs_simpl. by rewrite detached_registered.
  - destruct (sockets st !! x); [|done]. simpl in Hstep. simplify_eq.
    by rewrite logPush_state.
  - destruct (sockets st !! x); [|done]. simpl in Hstep. by simplify_eq.
  - destruct (sockets st !! x); [|done]. simpl in Hstep.
    rewrite onDisconnect_cases in Hstep. obs_simpl.
    destruct (nodeMap st !! x); simplify_eq; cbn [final_state]; [|done].
    unfold disconnected. obs_simpl. by rewrite detached_registered.
Qed.

(** C9: whatever events follow (create, join, leave, push, list,
    disconnect, in any number and order), an id that names a stream goes on
    naming one: no handler deletes from [streams], not even when the
    member set of a stream becomes empty. *)
Theorem streams_never_removed evs : ∀ st s,
  registered s st → registered s (run st evs).1.
Proof.
  induction evs as [|ev evs IH]; intros st s Hs; [done|].
  cbn [run]. destruct (step st ev) as [[st' out|st' out]|] eqn:Hstep; [| |done].
  - pose proof (step_registered st ev _ s Hstep Hs) as Hs'.
    specialize (IH st' s Hs'). by destruct (run st' evs).
  - apply (step_registered st ev _ s Hstep Hs).
Qed.

Lemma streams_never_removed_witness :
  registered streamS1 scenario_state
  ∧ registered streamS1 (run scenario_state scenario_emptied).1
  ∧ members streamS1 (run scenario_state scenario_emptied).1 = [].
Proof.
  assert (registered streamS1 scenario_state) as Hs by (vm_compute; eauto).
  split; [exact Hs|]. split; [|vm_compute; reflexivity].
  apply (streams_never_removed scenario_emptied scenario_state streamS1 Hs).
Defined.

(** ** Identifiers *)

Lemma detached_ids x b st :
  assigned_nodeIds (detached x b st).2 = [] ∧ created_streamIds (detached x b st).2 = [].
Proof.
  unfold detached, remove_from_stream.
  destruct (current_streamId _) as [old|]; [|done].
  by destruct (jsmap_get old (streams st)).
Qed.

Lemma assigned_nodeIds_app out1 out2 :
  assigned_nodeIds (out1 ++ out2) = assigned_nodeIds out1 ++ assigned_nodeIds out2.
Proof. apply omap_app. Qed.

Lemma created_streamIds_app out1 out2 :
  created_streamIds (out1 ++ out2) = created_streamIds out1 ++ created_streamIds out2.
Proof. apply omap_app. Qed.

(** What one event contributes to the ids handed out. *)
Lemma step_ids st ev o :
  step st ev = Some o →
  assigned_nodeIds (emitted o) = generateNodeId <$> connect_uuids [ev]
  ∧ created_streamIds (emitted o) `sublist_of` create_uuids [ev].
Proof.
  intros Hstep.
  destruct ev as [x u|x data u now|x data|x|x data now|x|x]; simpl in Hstep.
  - destruct (sockets st !! x); [done|]. by simplify_eq.
  - destruct (sockets st !! x); [|done]. simpl in Hstep. simplify_eq.
    unfold streamCreate. destruct (negb (object_coercible data)).
    { split; [done|]. apply sublist_nil_l. }
    destruct (negb _ || negb _); (split; [done|]).
    + apply sublist_nil_l.
    + done.
  - destruct (sockets st !! x) as [n|]; [|done]. simpl in Hstep. simplify_eq.
    destruct (object_coercible data) eqn:Hd.
    + rewrite streamJoin_cases by done.
      destruct (streams_get _ st) as [[k stream]|]; [|done].
      destruct (strict_eq _ _); [|done]. cbn [emitted].
      rewrite assigned_nodeIds_app, created_streamIds_app.
      destruct (detached_ids x true st) as [-> ->]. done.
    + unfold streamJoin. by rewrite Hd.
  - destruct (sockets st !! x) as [n|]; [|done]. simpl in Hstep. simplify_eq.
    rewrite streamLeave_cases. destruct (current_streamId _); [|done].
    cbn [emitted]. rewrite assigned_nodeIds_app, created_streamIds_app.
    destruct (detached_ids x true st) as [-> ->]. done.
  - destruct (sockets st !! x); [|done]. simpl in Hstep. simplify_eq.
    unfold logPush. destruct (nodeMap st !! x); [|done].
    destruct (current_streamId _); [|done].
    destruct (negb (object_coercible data)); [done|].
    by destruct (negb (truthy _)).
  - destruct (sockets st !! x); [|done]. simpl in Hstep. by simplify_eq.
  - destruct (sockets st !! x); [|done]. simpl in Hstep.
    rewrite onDisconnect_cases in Hstep. obs_simpl.
    destruct (nodeMap st !! x); simplify_eq; cbn [emitted]; [|done].
    by destruct (detached_ids x false (socket_close x st)) as [-> ->].
Qed.

Lemma run_ids evs : ∀ st,
  assigned_nodeIds (run st evs).2 `sublist_of` generateNodeId <$> connect_uuids evs
  ∧ created_streamIds (run st evs).2 `sublist_of` create_uuids evs.
Proof.
  induction evs as [|ev evs IH]; intros st; [done|].
  change (ev :: evs) with ([ev] ++ evs).
  unfold connect_uuids, create_uuids. rewrite !omap_app, fmap_app.
  fold (connect_uuids [ev]) (connect_uuids evs) (create_uuids [ev]) (create_uuids evs).
  cbn [app run].
  destruct (step st ev) as [[st' out|st' out]|] eqn:Hstep.
  - destruct (step_ids st ev _ Hstep) as [Ha Hc]. cbn [emitted] in Ha, Hc.
    destruct (IH st') as [IHa IHc]. destruct (run st' evs) as [st'' out'].
    cbn [snd] in *. rewrite assigned_nodeIds_app, created_streamIds_app, Ha.
    split; [by apply sublist_app|by apply sublist_app].
  - destruct (step_ids st ev _ Hstep) as [Ha Hc]. cbn [emitted snd] in *.
    rewrite Ha. split; [by apply sublist_inserts_r|by apply sublist_inserts_r].
  - split; apply sublist_nil_l.
Qed.

Lemma generateNodeId_inj u1 u2 :
  generateNodeId u1 = generateNodeId u2 ↔ substring 0 8 u1 = substring 0 8 u2.
Proof.
  unfold generateNodeId. split; [|by intros ->].
  cbn [String.append]. by intros [= ?].
Qed.

Lemma NoDup_generateNodeId (us : list string) :
  NoDup (substring 0 8 <$> us) → NoDup (generateNodeId <$> us).
Proof.
  induction us as [|u us IH]; [constructor|].
  rewrite !fmap_cons, !NoDup_cons. intros [Hu Hus]. split; [|by apply IH].
  rewrite !list_elem_of_fmap in *. intros (u' & Heq%generateNodeId_inj & Hin).
  apply Hu. eauto.
Qed.

(** C4, as the code has it: the stream id a create returns is the value
    of [uuidv4()], so the returned stream ids are pairwise distinct when
    the values of [uuidv4()] are; a node id is ["node-"] followed by the
    first eight characters only of a value of [uuidv4()], so the node ids
    handed out are pairwise distinct when those eight-character prefixes
    are, and two node ids are equal exactly when the prefixes are. *)
Theorem ids_distinct_when_uuids_are evs st :
  (NoDup (create_uuids evs) → NoDup (created_streamIds (run st evs).2))
  ∧ (NoDup (substring 0 8 <$> connect_uuids evs) →
     NoDup (assigned_nodeIds (run st evs).2))
  ∧ (∀ u1 u2,
       generateNodeId u1 = generateNodeId u2 ↔ substring 0 8 u1 = substring 0 8 u2).
Proof.
  destruct (run_ids evs st) as [Ha Hc]. split_and!.
  - intros Hnd. by eapply sublist_NoDup.
  - intros Hnd%NoDup_generateNodeId. by eapply sublist_NoDup.
  - apply generateNodeId_inj.
Qed.

Lemma ids_distinct_when_uuids_are_witness :
  NoDup (create_uuids scenario)
  ∧ NoDup (substring 0 8 <$> connect_uuids scenario)
  ∧ NoDup (created_streamIds (run init scenario).2)
  ∧ NoDup (assigned_nodeIds (run init scenario).2).
Proof.
  assert (NoDup (create_uuids scenario)) as Hc
    by (apply (bool_decide_unpack _); vm_compute; exact I).
  assert (NoDup (substring 0 8 <$> connect_uuids scenario)) as Hn
    by (apply (bool_decide_unpack _); vm_compute; exact I).
  pose proof (ids_distinct_when_uuids_are scenario init) as (Hs & Ha & _).
  split; [exact Hc|]. split; [exact Hn|]. split; [exact (Hs Hc)|exact (Ha Hn)].
Defined.

(** C4 fails as stated: two connections get the same node id although
    [uuidv4()] returned two different values for them. *)
Lemma nodeIds_collide :
  valid_trace init collision
  ∧ NoDup (connect_uuids collision)
  ∧ assigned_nodeIds (run init collision).2 = ["node-3f2a9c10"; "node-3f2a9c10"]
  ∧ ¬ NoDup (assigned_nodeIds (run init collision).2).
Proof.
  split; [vm_compute; repeat split|].
  split; [apply (bool_decide_unpack _); vm_compute; exact I|].
  split; [vm_compute; reflexivity|].
  intros Hnd. apply (bool_decide_pack _) in Hnd. vm_compute in Hnd. done.
Qed.

(** ** Malformed data *)

(** C7 does not hold of the code: destructuring a missing ([undefined]) or
    [null] data argument throws a TypeError out of the create and join
    handlers, and out of the push handler when the sender is a member of a
    stream.  The state is not touched, but nothing catches the exception. *)
Theorem missing_data_throws x nodeId uuid now st :
  streamCreate x JUndefined uuid now st = Throws st []
  ∧ streamCreate x JNull uuid now st = Throws st []
  ∧ streamJoin x nodeId JUndefined st = Throws st []
  ∧ streamJoin x nodeId JNull st = Throws st []
  ∧ logPush socketA JUndefined now scenario_state = Throws scenario_state []
  ∧ step scenario_state (EvCreate socketA JUndefined uuid now)
    = Some (Throws scenario_state []).
Proof.
  split_and!; reflexivity.
Qed.

(** Data that is not an object but can be destructured (a number, a string,
    a boolean) is answered with an error and changes nothing. *)
Lemma primitive_data_keeps_state x nodeId uuid now st data :
  object_coercible data = true → (∀ fields, data ≠ JObj fields) →
  streamCreate x data uuid now st
  = Done st [ToSocket x (CreateResultError InvalidRequest)]
  ∧ streamJoin x nodeId data st = Done st [ToSocket x (JoinResultError NotFound)]
  ∧ final_state (logPush x data now st) = st.
Proof.
  intros Hd Hobj. split_and!.
  - unfold streamCreate. rewrite Hd. destruct data; try done. by destruct (Hobj fields).
  - rewrite streamJoin_cases by done. destruct data; try done. by destruct (Hobj fields).
  - apply logPush_state.
Qed.

Lemma received_app keep y out1 out2 :
  received keep y (out1 ++ out2) = received keep y out1 ++ received keep y out2.
Proof. unfold received. apply flat_map_app. Qed.

Lemma received_room keep y r (members : gset string) m :
  received keep y [ToRoom r (elements members) m]
  = if decide (y ∈ members) then (if keep m then [m] else []) else [].
Proof.
  unfold received. cbn [flat_map]. rewrite app_nil_r.
  rewrite deliver_NoDup by apply NoDup_elements.
  destruct (decide (y ∈ members)) as [Hy|Hy].
  - rewrite decide_True; [done|]. by apply elem_of_elements.
  - rewrite decide_False; [done|]. by rewrite elem_of_elements.
Qed.

Lemma received_socket keep y x m :
  received keep y [ToSocket x m]
  = if decide (x = y) then (if keep m then [m] else []) else [].
Proof. unfold received, deliver. cbn [flat_map]. by rewrite app_nil_r. Qed.

Lemma getStreamNodes_node_ids st s :
  (∀ y, y ∈ members s st → is_Some (nodeMap st !! y)) →
  node_ids_of st (members s st) (getStreamNodes s st).
Proof.
  unfold members, getStreamNodes, node_ids_of.
  destruct (jsmap_get s (streams st)) as [stream|]; simpl; [|constructor].
  induction (Stream.nodes stream) as [|y l IH]; intros Hreg; [constructor|].
  destruct (Hreg y) as [info Hy]; [apply list_elem_of_here|].
  cbn [omap list_omap]. rewrite Hy. cbn. constructor; [eauto|].
  apply IH. intros z Hz. apply Hreg. by apply list_elem_of_further.
Qed.

Lemma node_ids_of_length st ys ns : node_ids_of st ys ns → length ns = length ys.
Proof. unfold node_ids_of. induction 1; simpl; congruence. Qed.

(** X1: in a reachable state the node list of a stream names every member:
    the [if (nodeInfo)] test of [getStreamNodes] never skips one. *)
Theorem getStreamNodes_complete st s :
  reachable st →
  node_ids_of st (members s st) (getStreamNodes s st)
  ∧ length (getStreamNodes s st) = length (members s st).
Proof.
  intros Hwf%reachable_wf.
  assert (node_ids_of st (members s st) (getStreamNodes s st)) as H.
  { apply getStreamNodes_node_ids. intros y Hy.
    destruct (wf_member st Hwf y s Hy) as (info & Hi & _). eauto. }
  split; [done|]. by apply (node_ids_of_length st).
Qed.

Lemma getStreamNodes_complete_witness :
  reachable scenario_state
  ∧ node_ids_of scenario_state [socketA; socketB]
      (getStreamNodes streamS1 scenario_state)
  ∧ length (getStreamNodes streamS1 scenario_state) = 2.
Proof.
  split; [exact scenario_reachable|].
  exact (getStreamNodes_complete scenario_state streamS1 scenario_reachable).
Defined.

Lemma node_ids_of_ext st1 st2 ys ns :
  nodeMap st1 = nodeMap st2 → node_ids_of st1 ys ns → node_ids_of st2 ys ns.
Proof. unfold node_ids_of. by intros ->. Qed.

(** What the removal block broadcasts when the entry of [x] names the
    registered stream [s]. *)
Lemma detached_broadcast x b st s :
  current_streamId (nodeMap st !! x) = Some s → registered s st →
  (∀ y, y ∈ members s st → is_Some (nodeMap st !! y)) →
  ∃ nodes,
    (detached x b st).2
    = [ToRoom s (elements (room_members s (detached x b st).1)) (NodeList s nodes)]
    ∧ node_ids_of st (set_delete x (members s st)) nodes.
Proof.
  intros Hc Hs Hreg.
  pose proof (remove_members x s b st s) as Hm. rewrite decide_True in Hm by done.
  pose proof (remove_nodeMap x s b st) as Hn.
  unfold detached. rewrite Hc.
  destruct Hs as [stream Hs]. unfold remove_from_stream in *. rewrite Hs in *.
  cbn [fst snd] in *. eexists. split; [reflexivity|].
  set (st2 := if b then _ else _) in *.
  apply (node_ids_of_ext st2); [done|]. rewrite <- Hm.
  apply getStreamNodes_node_ids. intros y Hy. rewrite Hm in Hy.
  apply elem_of_set_delete in Hy as [_ Hy]. rewrite Hn. by apply Hreg.
Qed.

Lemma wf_members_registered st s :
  wf st → ∀ y, y ∈ members s st → is_Some (nodeMap st !! y).
Proof.
  intros Hwf y Hy. destruct (wf_member st Hwf y s Hy) as (info & Hi & _). eauto.
Qed.

(** X2: a leave from a connection that is in no member set is acknowledged,
    changes nothing and notifies nobody. *)
Theorem leave_without_membership x nodeId st :
  reachable st → ¬ has_membership x st →
  streamLeave x nodeId st = Done st [ToSocket x LeaveResultOk].
Proof.
  intros Hwf%reachable_wf Hno. rewrite streamLeave_cases.
  rewrite (wf_has_membership st x Hwf) in Hno.
  destruct (current_streamId _); [|done]. destruct Hno. by eexists.
Qed.

Lemma leave_without_membership_witness :
  reachable init ∧ ¬ has_membership socketA init
  ∧ streamLeave socketA (generateNodeId uuidA) init
    = Done init [ToSocket socketA LeaveResultOk].
Proof.
  assert (¬ has_membership socketA init) as Hno.
  { intros [s Hs]. vm_compute in Hs. by apply elem_of_nil in Hs. }
  split; [apply reachable_init|]. split; [exact Hno|].
  apply (leave_without_membership socketA (generateNodeId uuidA) init reachable_init Hno).
Defined.

(** X3: a second leave right after a leave only acknowledges: the state
    stays the one the first leave ended in and nothing is broadcast. *)
Theorem leave_idempotent x nodeId st :
  let st1 := final_state (streamLeave x nodeId st) in
  streamLeave x nodeId st1 = Done st1 [ToSocket x LeaveResultOk].
Proof.
  intros st1. subst st1. rewrite (streamLeave_cases x nodeId st).
  destruct (current_streamId (nodeMap st !! x)) as [s|] eqn:Hc; cbn [final_state].
  - rewrite streamLeave_cases. unfold left at 1. obs_simpl.
    by rewrite lookup_insert_eq.
  - rewrite streamLeave_cases. by rewrite Hc.
Qed.

(** X4: after a leave the connection is in no member set and its entry has
    no stream; the member sets lose that connection and nothing else, and
    no other entry and no socket changes. *)
Theorem leave_postcondition x nodeId st :
  reachable st → sockets st !! x = Some nodeId →
  let st' := final_state (streamLeave x nodeId st) in
  (∀ s y, y ∈ members s st' ↔ y ≠ x ∧ y ∈ members s st)
  ∧ nodeMap st' = <[x := Node.mk nodeId None]> (nodeMap st)
  ∧ sockets st' = sockets st
  ∧ (∀ s, registered s st' ↔ registered s st).
Proof.
  intros Hwf%reachable_wf Hx st'. subst st'. rewrite streamLeave_cases.
  pose proof (wf_Hcur st x Hwf) as Hcur.
  destruct (current_streamId (nodeMap st !! x)) as [s|] eqn:Hc; cbn [final_state].
  - unfold left. split_and!.
    + intros s' y. obs_simpl. rewrite detached_members by (by rewrite Hc). done.
    + obs_simpl. by rewrite detached_nodeMap.
    + obs_simpl. by rewrite detached_sockets.
    + intros s'. obs_simpl. apply detached_registered.
  - split_and!; try done.
    + intros s' y. split; [|tauto]. intros Hy. split; [|done]. intros ->.
      apply Hcur in Hy. congruence.
    + destruct (wf_live st Hwf x nodeId Hx) as (info & Hi & Hn).
      symmetry. apply insert_id. rewrite Hi. f_equal.
      destruct info as [n [s|]]; simpl in *; subst; [|done].
      rewrite Hi in Hc.
      by rewrite (wf_current_streamId st x _ s Hwf Hi eq_refl) in Hc.
Qed.

Lemma leave_postcondition_witness :
  reachable scenario_state
  ∧ sockets scenario_state !! socketA = Some (generateNodeId uuidA)
  ∧ ∀ s y,
      y ∈ members s
            (final_state (streamLeave socketA (generateNodeId uuidA) scenario_state))
      ↔ y ≠ socketA ∧ y ∈ members s scenario_state.
Proof.
  split; [apply scenario_reachable|]. split; [vm_compute; reflexivity|].
  exact (proj1 (leave_postcondition socketA (generateNodeId uuidA) scenario_state
                  scenario_reachable eq_refl)).
Defined.

(** X5: when a member of stream [s] leaves, the leaver receives the
    acknowledgement and nothing else, every other member of [s] receives
    one node list of [s], naming the remaining members in order, and
    nobody else receives anything. *)
Theorem leave_notifies_remaining x nodeId st s :
  reachable st → x ∈ members s st →
  ∃ nodes,
    node_ids_of st (set_delete x (members s st)) nodes
    ∧ ∀ y,
        received any_msg y (emitted (streamLeave x nodeId st))
        = if decide (y = x) then [LeaveResultOk]
          else if decide (y ∈ members s st) then [NodeList s nodes] else [].
Proof.
  intros Hwf%reachable_wf Hx.
  pose proof (wf_Hcur st x Hwf s Hx) as Hc.
  pose proof (members_registered x s st Hx) as Hs.
  destruct (detached_broadcast x true st s Hc Hs (wf_members_registered st s Hwf))
    as (nodes & Hout & Hnodes).
  exists nodes. split; [done|]. intros y.
  rewrite streamLeave_cases, Hc. cbn [emitted].
  rewrite received_app, Hout, received_room, received_socket. cbn [any_msg].
  assert (y ∈ room_members s (detached x true st).1 ↔ y ∈ members s st ∧ y ≠ x) as Hroom.
  { rewrite (detached_rooms_leave x true st (wf_Hcur st x Hwf) s y eq_refl
               (λ s' Hs', wf_room st Hwf s' x Hs')).
    rewrite (wf_room st Hwf s y Hs). tauto. }
  destruct (decide (y = x)) as [->|Hne].
  - rewrite decide_False by (rewrite Hroom; tauto). by rewrite decide_True.
  - rewrite (decide_False (P := x = y)) by congruence. rewrite app_nil_r.
    destruct (decide (y ∈ members s st)) as [Hy|Hy].
    + rewrite decide_True; [done|]. by apply Hroom.
    + rewrite decide_False; [done|]. rewrite Hroom. tauto.
Qed.

Lemma leave_notifies_remaining_witness :
  reachable scenario_state ∧ socketA ∈ members streamS1 scenario_state
  ∧ received any_msg socketB
      (emitted (streamLeave socketA (generateNodeId uuidA) scenario_state))
    = [NodeList streamS1 [generateNodeId uuidB]].
Proof.
  assert (socketA ∈ members streamS1 scenario_state) as Hin
    by (vm_compute; apply list_elem_of_here).
  split; [apply scenario_reachable|]. split; [exact Hin|].
  destruct (leave_notifies_remaining socketA (generateNodeId uuidA) scenario_state
              streamS1 scenario_reachable Hin) as (nodes & Hnodes & Hrecv).
  rewrite Hrecv. vm_compute in Hnodes.
  inversion Hnodes as [|? n ? ns (info & Hi & Hn) Hrest]; subst.
  inversion Hrest; subst. vm_compute in Hi. injection Hi as <-.
  vm_compute. reflexivity.
Defined.

Lemma set_delete_absent x (s : list string) : x ∉ s → set_delete x s = s.
Proof.
  unfold set_delete. induction s as [|y s IH]; [done|].
  rewrite not_elem_of_cons. intros [Hne Hs].
  rewrite filter_cons. case_decide; [by rewrite IH|congruence].
Qed.

Lemma set_add_absent x (s : list string) : x ∉ s → set_add x s = s ++ [x].
Proof. intros Hx. unfold set_add. by rewrite decide_False. Qed.

Lemma detached_members_list x b st s :
  (∀ s, x ∈ members s st → current_streamId (nodeMap st !! x) = Some s) →
  members s (detached x b st).1 = set_delete x (members s st).
Proof.
  intros Hcur. unfold detached.
  destruct (current_streamId _) as [old|] eqn:Hc; cbn [fst].
  - rewrite remove_members. case_decide; [done|].
    symmetry. apply set_delete_absent. intros Hx%Hcur. congruence.
  - symmetry. apply set_delete_absent. intros Hx%Hcur. congruence.
Qed.

Lemma streamJoin_success x nodeId data st k stream :
  object_coercible data = true →
  streams_get (get_prop "streamId" data) st = Some (k, stream) →
  strict_eq (Stream.passwordHash stream) (get_prop "passwordHash" data) = true →
  streamJoin x nodeId data st
  = Done (joined x nodeId k st)
      ((detached x true st).2
       ++ [ToSocket x (JoinResultOk k (Stream.name stream));
           broadcastNodeList k (joined x nodeId k st)]).
Proof. intros Hd Hk He. by rewrite streamJoin_cases, Hk, He. Qed.

Lemma join_state x nodeId data st k stream :
  reachable st → sockets st !! x = Some nodeId →
  object_coercible data = true →
  streams_get (get_prop "streamId" data) st = Some (k, stream) →
  strict_eq (Stream.passwordHash stream) (get_prop "passwordHash" data) = true →
  let st' := final_state (streamJoin x nodeId data st) in
  (∀ s y, y ∈ members s st' ↔ (y = x ∧ s = k) ∨ (y ≠ x ∧ y ∈ members s st))
  ∧ members k st' = set_delete x (members k st) ++ [x]
  ∧ nodeMap st' = <[x := Node.mk nodeId (Some k)]> (nodeMap st)
  ∧ sockets st' = sockets st
  ∧ (∀ s, registered s st' ↔ registered s st).
Proof.
  intros Hwf%reachable_wf Hx Hd Hk He st'. subst st'.
  rewrite (streamJoin_success x nodeId data st k stream) by done. cbn [final_state].
  apply streams_get_Some in Hk as [_ Hk].
  assert (registered k st) as Hreg by (unfold registered; eauto).
  pose proof (wf_Hcur st x Hwf) as Hcur.
  unfold joined. set (st1 := (detached x true st).1).
  assert (members k (mutate_nodes (set_add x) k st1)
          = set_delete x (members k st) ++ [x]) as Hlist.
  { rewrite members_mutate_nodes_eq by (by apply detached_registered).
    subst st1. rewrite detached_members_list by done.
    apply set_add_absent. rewrite elem_of_set_delete. tauto. }
  split_and!.
  - intros s y. obs_simpl. destruct (decide (k = s)) as [<-|Hne].
    + rewrite Hlist, elem_of_app, elem_of_set_delete, list_elem_of_singleton.
      destruct (decide (y = x)); tauto.
    + rewrite members_mutate_nodes_ne by done. subst st1.
      rewrite detached_members by done. split; [tauto|].
      intros [[_ ->]|?]; [done|tauto].
  - obs_simpl. done.
  - obs_simpl. subst st1. by rewrite detached_nodeMap.
  - obs_simpl. subst st1. by rewrite detached_sockets.
  - intros s. obs_simpl. rewrite registered_mutate_nodes. apply detached_registered.
Qed.

(** X6: after a successful join of stream [k] the joiner is a member of [k]
    and of no other stream, last in the order of the member set of [k];
    the other connections are members of what they were members of, and
    only the joiner's entry changes: it names [k] and keeps the node id. *)
Theorem join_postcondition x nodeId data st k stream :
  reachable st → sockets st !! x = Some nodeId →
  object_coercible data = true →
  streams_get (get_prop "streamId" data) st = Some (k, stream) →
  strict_eq (Stream.passwordHash stream) (get_prop "passwordHash" data) = true →
  let st' := final_state (streamJoin x nodeId data st) in
  (∀ s y, y ∈ members s st' ↔ (y = x ∧ s = k) ∨ (y ≠ x ∧ y ∈ members s st))
  ∧ members k st' = set_delete x (members k st) ++ [x]
  ∧ nodeMap st' = <[x := Node.mk nodeId (Some k)]> (nodeMap st)
  ∧ sockets st' = sockets st
  ∧ (∀ s, registered s st' ↔ registered s st).
Proof. apply join_state. Qed.

Lemma join_postcondition_witness :
  reachable scenario_state
  ∧ members streamS1
      (final_state (streamJoin socketA (generateNodeId uuidA) (join_alpha "t1")
                      scenario_state))
    = set_delete socketA (members streamS1 scenario_state) ++ [socketA].
Proof.
  split; [apply scenario_reachable|].
  refine (proj1 (proj2 (join_postcondition socketA (generateNodeId uuidA)
            (join_alpha "t1") scenario_state streamS1 _ scenario_reachable
            eq_refl eq_refl _ _))); vm_compute; reflexivity.
Defined.

Lemma join_messages x nodeId data st k stream :
  reachable st → sockets st !! x = Some nodeId →
  object_coercible data = true →
  streams_get (get_prop "streamId" data) st = Some (k, stream) →
  strict_eq (Stream.passwordHash stream) (get_prop "passwordHash" data) = true →
  let st' := final_state (streamJoin x nodeId data st) in
  ∃ nodes_old nodes_new,
    (∀ old, x ∈ members old st →
       node_ids_of st (set_delete x (members old st)) nodes_old)
    ∧ node_ids_of st' (set_delete x (members k st) ++ [x]) nodes_new
    ∧ ∀ y,
        received any_msg y (emitted (streamJoin x nodeId data st))
        = match current_streamId (nodeMap st !! x) with
          | Some old =>
              if decide (y ≠ x ∧ y ∈ members old st)
              then [NodeList old nodes_old] else []
          | None => []
          end
          ++ (if decide (y = x) then [JoinResultOk k (Stream.name stream)] else [])
          ++ (if decide (y = x ∨ y ∈ members k st) then [NodeList k nodes_new] else []).
Proof.
  intros Hreach Hx Hd Hk He st'.
  pose proof (join_state x nodeId data st k stream Hreach Hx Hd Hk He)
    as (Hm' & Hlist & _).
  fold st' in Hm', Hlist.
  pose proof (streamJoin_success x nodeId data st k stream Hd Hk He) as Hjoin.
  assert (st' = joined x nodeId k st) as Hst' by (subst st'; by rewrite Hjoin).
  assert (wf st') as Hwf'.
  { rewrite Hst'. apply streams_get_Some in Hk as [_ Hk].
    apply wf_joined; [by apply reachable_wf|done|]. unfold registered. eauto. }
  pose proof (reachable_wf st Hreach) as Hwf.
  pose proof (wf_Hcur st x Hwf) as Hcur.
  assert (registered k st') as Hreg'.
  { apply (members_registered x k). apply Hm'. by left. }
  assert (node_ids_of st' (set_delete x (members k st) ++ [x]) (getStreamNodes k st'))
    as Hnew.
  { rewrite <- Hlist. apply getStreamNodes_node_ids, wf_members_registered, Hwf'. }
  assert (∀ y, y ∈ room_members k st' ↔ y = x ∨ y ∈ members k st) as Hroom'.
  { intros y. rewrite (wf_room st' Hwf' k y Hreg'), Hm'.
    destruct (decide (y = x)); tauto. }
  assert (∀ y old, current_streamId (nodeMap st !! x) = Some old →
            y ∈ room_members old (detached x true st).1
            ↔ y ≠ x ∧ y ∈ members old st) as Hroom.
  { intros y old Hc.
    destruct (current_streamId_Some _ _ Hc) as (info & Hi & Hs & _).
    pose proof (wf_current st Hwf x info old Hi Hs) as Hin.
    pose proof (members_registered x old st Hin) as Hold.
    rewrite (detached_rooms_leave x true st Hcur old y eq_refl
               (λ s' Hs', wf_room st Hwf s' x Hs')).
    rewrite (wf_room st Hwf old y Hold). tauto. }
  assert (∀ y,
    received any_msg y (emitted (streamJoin x nodeId data st))
    = received any_msg y (detached x true st).2
      ++ (if decide (y = x) then [JoinResultOk k (Stream.name stream)] else [])
      ++ (if decide (y = x ∨ y ∈ members k st)
          then [NodeList k (getStreamNodes k st')] else [])) as Hshape.
  { intros y. rewrite Hjoin. cbn [emitted]. rewrite <- Hst'.
    rewrite received_app. f_equal.
    change [ToSocket x (JoinResultOk k (Stream.name stream)); broadcastNodeList k st']
      with ([ToSocket x (JoinResultOk k (Stream.name stream))]
            ++ [broadcastNodeList k st']).
    rewrite received_app, received_socket. unfold broadcastNodeList.
    rewrite received_room. cbn [any_msg]. f_equal.
    - destruct (decide (x = y)), (decide (y = x)); congruence.
    - destruct (decide (y ∈ room_members k st')) as [Hy|Hy];
        [rewrite decide_True|rewrite decide_False]; try done; by rewrite <- Hroom'. }
  destruct (current_streamId (nodeMap st !! x)) as [old|] eqn:Hc.
  - destruct (current_streamId_Some _ _ Hc) as (info & Hi & Hs & _).
    pose proof (wf_current st Hwf x info old Hi Hs) as Hin.
    destruct (detached_broadcast x true st old Hc (members_registered x old st Hin)
                (wf_members_registered st old Hwf)) as (nodes & Hout & Hnodes).
    exists nodes, (getStreamNodes k st'). split_and!; [|done|].
    + intros old' Hin'. by rewrite <- (wf_single st x old old' Hwf Hin Hin').
    + intros y. rewrite Hshape, Hout, received_room. cbn [any_msg]. f_equal.
      destruct (decide (y ∈ room_members old (detached x true st).1)) as [Hy|Hy];
        [rewrite decide_True|rewrite decide_False]; try done; by rewrite <- Hroom.
  - exists [], (getStreamNodes k st'). split_and!; [|done|].
    + intros old Hin%Hcur. congruence.
    + intros y. rewrite Hshape. f_equal. unfold detached. by rewrite Hc.
Qed.

(** X7: what a successful join of stream [k] sends.  If the joiner's entry
    named a stream [old], the other members of [old] first receive the
    node list of [old] without the joiner; then the joiner receives the
    result; then the joiner and the members of [k] receive the node list
    of [k], which ends with the joiner.  Nobody receives anything else. *)
Theorem join_notifies x nodeId data st k stream :
  reachable st → sockets st !! x = Some nodeId →
  object_coercible data = true →
  streams_get (get_prop "streamId" data) st = Some (k, stream) →
  strict_eq (Stream.passwordHash stream) (get_prop "passwordHash" data) = true →
  let st' := final_state (streamJoin x nodeId data st) in
  ∃ nodes_old nodes_new,
    (∀ old, x ∈ members old st →
       node_ids_of st (set_delete x (members old st)) nodes_old)
    ∧ node_ids_of st' (set_delete x (members k st) ++ [x]) nodes_new
    ∧ ∀ y,
        received any_msg y (emitted (streamJoin x nodeId data st))
        = match current_streamId (nodeMap st !! x) with
          | Some old =>
              if decide (y ≠ x ∧ y ∈ members old st)
              then [NodeList old nodes_old] else []
          | None => []
          end
          ++ (if decide (y = x) then [JoinResultOk k (Stream.name stream)] else [])
          ++ (if decide (y = x ∨ y ∈ members k st) then [NodeList k nodes_new] else []).
Proof. apply join_messages. Qed.

Lemma join_notifies_witness :
  reachable scenario_state
  ∧ ∃ nodes_old nodes_new,
      received any_msg socketB
        (emitted (streamJoin socketA (generateNodeId uuidA) (join_alpha "t1")
                    scenario_state))
      = [NodeList streamS1 nodes_old; NodeList streamS1 nodes_new].
Proof.
  split; [apply scenario_reachable|].
  assert (streams_get (get_prop "streamId" (join_alpha "t1")) scenario_state
          = Some (streamS1, Stream.mk streamS1 (JStr "alpha") (JStr "t1") 1700000000000
                              [socketA; socketB])) as Hk by (vm_compute; reflexivity).
  destruct (join_notifies socketA (generateNodeId uuidA) (join_alpha "t1")
              scenario_state streamS1 _ scenario_reachable eq_refl eq_refl Hk eq_refl)
    as (nodes_old & nodes_new & _ & _ & Hrecv).
  exists nodes_old, nodes_new. rewrite Hrecv. vm_compute. reflexivity.
Defined.

Lemma members_ext st1 st2 s : streams st1 = streams st2 → members s st1 = members s st2.
Proof. unfold members. by intros ->. Qed.

Lemma NoDup_set_add x (l : list string) : NoDup l → NoDup (set_add x l).
Proof.
  intros Hl. unfold set_add. case_decide; [done|].
  apply NoDup_app. split_and!; [done| |apply NoDup_singleton].
  intros y Hy ->%list_elem_of_singleton. done.
Qed.

Lemma NoDup_set_delete x (l : list string) : NoDup l → NoDup (set_delete x l).
Proof. apply NoDup_filter. Qed.

Lemma length_set_delete x (l : list string) :
  NoDup l → x ∈ l → length l = S (length (set_delete x l)).
Proof.
  unfold set_delete. induction 1 as [|z l Hz Hl IH]; [by intros ?%elem_of_nil|].
  intros Hin. rewrite filter_cons. destruct (decide (z = x)) as [->|Hne].
  - rewrite decide_False by (intros H; by apply H).
    fold (set_delete x l). by rewrite set_delete_absent.
  - rewrite decide_True by done. cbn [length]. f_equal. apply IH.
    apply elem_of_cons in Hin as [->|?]; done.
Qed.

Lemma mutate_nodes_NoDup f k st :
  (∀ l, NoDup l → NoDup (f l)) →
  (∀ s, NoDup (members s st)) → ∀ s, NoDup (members s (mutate_nodes f k st)).
Proof.
  intros Hf Hst s. specialize (Hst s). unfold members in *.
  rewrite get_mutate_nodes. case_decide; [|done].
  destruct (jsmap_get s (streams st)); simpl in *; [by apply Hf|constructor].
Qed.

Lemma detached_NoDup x b st :
  (∀ s, NoDup (members s st)) → ∀ s, NoDup (members s (detached x b st).1).
Proof.
  intros Hst s. unfold detached. destruct (current_streamId _) as [old|]; [|done].
  cbn [fst]. rewrite (members_ext _ (mutate_nodes (set_delete x) old st))
    by apply remove_streams.
  apply mutate_nodes_NoDup; [apply NoDup_set_delete|done].
Qed.

Lemma step_members_NoDup st ev o :
  step st ev = Some o →
  (∀ s, NoDup (members s st)) → ∀ s, NoDup (members s (final_state o)).
Proof.
  intros Hstep Hst s.
  destruct ev as [x u|x data u now|x data|x|x data now|x|x]; simpl in Hstep.
  - destruct (sockets st !! x); [done|]. simplify_eq. cbn [final_state].
    obs_simpl. done.
  - destruct (sockets st !! x); [|done]. simpl in Hstep. simplify_eq.
    unfold streamCreate. destruct (negb (object_coercible data)); [done|].
    destruct (negb _ || negb _); [done|].
    unfold members. cbn [final_state streams set_streams].
    rewrite jsmap_get_set. case_decide; [constructor|apply Hst].
  - destruct (sockets st !! x) as [n|]; [|done]. simpl in Hstep. simplify_eq.
    destruct (object_coercible data) eqn:Hd.
    + rewrite streamJoin_cases by done.
      destruct (streams_get _ st) as [[k stream]|]; [|done].
      destruct (strict_eq _ _); [|done].
      unfold joined. cbn [final_state]. obs_simpl.
      apply mutate_nodes_NoDup; [apply NoDup_set_add|by apply detached_NoDup].
    + unfold streamJoin. by rewrite Hd.
  - destruct (sockets st !! x) as [n|]; [|done]. simpl in Hstep. simplify_eq.
    rewrite streamLeave_cases. destruct (current_streamId _); [|done].
    unfold left. cbn [final_state]. obs_simpl. by apply detached_NoDup.
  - destruct (sockets st !! x); [|done]. simpl in Hstep. simplify_eq.
    by rewrite logPush_state.
  - destruct (sockets st !! x); [|done]. simpl in Hstep. by simplify_eq.
  - destruct (sockets st !! x); [|done]. simpl in Hstep.
    rewrite onDisconnect_cases in Hstep. obs_simpl.
    destruct (nodeMap st !! x); simplify_eq; cbn [final_state]; [|by obs_simpl].
    unfold disconnected. obs_simpl. apply detached_NoDup. intros s'. by obs_simpl.
Qed.

Lemma reachable_members_NoDup st s : reachable st → NoDup (members s st).
Proof.
  intros Hst. revert s. induction Hst as [|st ev st' out _ IH _ Hstep].
  - intros s. constructor.
  - apply (step_members_NoDup st ev _ Hstep IH).
Qed.

(** X8: joining the stream one is already in leaves every member set with
    the members it had, but the other members of the stream are notified
    twice: first with a node list that lacks the joiner, then with one
    that has it again, one entry longer. *)
Theorem rejoin_notifies_twice x nodeId data st k stream :
  reachable st → sockets st !! x = Some nodeId →
  object_coercible data = true →
  streams_get (get_prop "streamId" data) st = Some (k, stream) →
  strict_eq (Stream.passwordHash stream) (get_prop "passwordHash" data) = true →
  x ∈ members k st →
  let st' := final_state (streamJoin x nodeId data st) in
  (∀ s y, y ∈ members s st' ↔ y ∈ members s st)
  ∧ ∃ nodes_old nodes_new,
      length nodes_new = S (length nodes_old)
      ∧ length nodes_new = length (members k st)
      ∧ ∀ y, y ≠ x → y ∈ members k st →
          received any_msg y (emitted (streamJoin x nodeId data st))
          = [NodeList k nodes_old; NodeList k nodes_new].
Proof.
  intros Hreach Hx Hd Hk He Hin st'.
  pose proof (reachable_wf st Hreach) as Hwf.
  pose proof (join_state x nodeId data st k stream Hreach Hx Hd Hk He)
    as (Hm' & _).
  destruct (join_messages x nodeId data st k stream Hreach Hx Hd Hk He)
    as (nodes_old & nodes_new & Hold & Hnew & Hrecv).
  fold st' in Hm', Hnew. split.
  - intros s y. rewrite Hm'. split.
    + intros [[-> ->]|[_ ?]]; done.
    + intros Hy. destruct (decide (y = x)) as [->|Hne]; [|tauto].
      left. split; [done|]. by apply (wf_single st x s k Hwf).
  - exists nodes_old, nodes_new.
    apply node_ids_of_length in Hnew. specialize (Hold k Hin).
    apply node_ids_of_length in Hold.
    rewrite length_app in Hnew. cbn [length] in Hnew.
    pose proof (length_set_delete x (members k st)
                  (reachable_members_NoDup st k Hreach) Hin) as Hlen.
    split_and!; [lia|lia|].
    intros y Hne Hy. rewrite Hrecv, (wf_Hcur st x Hwf k Hin).
    rewrite decide_True by done. rewrite decide_False by done.
    rewrite decide_True by (by right). done.
Qed.

Lemma rejoin_notifies_twice_witness :
  reachable scenario_state
  ∧ socketA ∈ members streamS1 scenario_state
  ∧ received any_msg socketB
      (emitted (streamJoin socketA (generateNodeId uuidA) (join_alpha "t1")
                  scenario_state))
    = [NodeList streamS1 [generateNodeId uuidB];
       NodeList streamS1 [generateNodeId uuidB; generateNodeId uuidA]].
Proof.
  assert (socketA ∈ members streamS1 scenario_state) as Hin
    by (vm_compute; apply list_elem_of_here).
  assert (streams_get (get_prop "streamId" (join_alpha "t1")) scenario_state
          = Some (streamS1, Stream.mk streamS1 (JStr "alpha") (JStr "t1") 1700000000000
                              [socketA; socketB])) as Hk by (vm_compute; reflexivity).
  split; [apply scenario_reachable|]. split; [exact Hin|].
  destruct (rejoin_notifies_twice socketA (generateNodeId uuidA) (join_alpha "t1")
              scenario_state streamS1 _ scenario_reachable eq_refl eq_refl Hk eq_refl Hin)
    as (_ & nodes_old & nodes_new & _ & _ & Hrecv).
  assert (socketB ∈ members streamS1 scenario_state) as HB
    by (vm_compute; apply list_elem_of_further, list_elem_of_here).
  specialize (Hrecv socketB ltac:(discriminate) HB).
  vm_compute. reflexivity.
Defined.

(** ** Disconnect, as Socket.IO runs it *)

Lemma step_disconnect st x st' out :
  wf st → step st (EvDisconnect x) = Some (Done st' out) →
  st' = disconnected x (socket_close x st)
  ∧ out = (detached x false (socket_close x st)).2.
Proof.
  intros Hwf Hstep. simpl in Hstep.
  destruct (sockets st !! x) as [n|] eqn:Hx; [|done]. simpl in Hstep.
  rewrite onDisconnect_cases in Hstep. obs_simpl.
  destruct (wf_live st Hwf x n Hx) as (info & Hi & _). rewrite Hi in Hstep.
  by simplify_eq.
Qed.



(** X10: when a member of stream [s] disconnects, every remaining member of
    [s] receives one node list of [s], naming the remaining members in
    order, and nobody else receives anything. *)
Theorem disconnect_notifies_remaining x st st' out s :
  reachable st → step st (EvDisconnect x) = Some (Done st' out) →
  x ∈ members s st →
  ∃ nodes,
    node_ids_of st (set_delete x (members s st)) nodes
    ∧ ∀ y,
        received any_msg y out
        = if decide (y ≠ x ∧ y ∈ members s st) then [NodeList s nodes] else [].
Proof.
  intros Hwf%reachable_wf Hstep Hx.
  destruct (step_disconnect st x st' out Hwf Hstep) as [-> ->].
  set (st0 := socket_close x st).
  pose proof (wf_Hcur st x Hwf s Hx) as Hc.
  pose proof (members_registered x s st Hx) as Hs.
  destruct (detached_broadcast x false st0 s) as (nodes & Hout & Hnodes).
  { subst st0. by obs_simpl. }
  { subst st0. by obs_simpl. }
  { subst st0. obs_simpl. by apply wf_members_registered. }
  exists nodes. split.
  { subst st0. by obs_simpl. }
  intros y. rewrite Hout, received_room. cbn [any_msg].
  rewrite detached_rooms_keep by done. subst st0. rewrite room_members_close.
  destruct (decide (y ≠ x ∧ y ∈ members s st)) as [[Hne Hy]|Hy].
  - rewrite decide_True; [done|].
    rewrite elem_of_difference, elem_of_singleton, (wf_room st Hwf s y Hs). done.
  - rewrite decide_False; [done|].
    rewrite elem_of_difference, elem_of_singleton, (wf_room st Hwf s y Hs). tauto.
Qed.

Lemma disconnect_notifies_remaining_witness :
  reachable scenario_state
  ∧ socketA ∈ members streamS1 scenario_state
  ∧ ∃ st' out,
      step scenario_state (EvDisconnect socketA) = Some (Done st' out)
      ∧ received any_msg socketB out = [NodeList streamS1 [generateNodeId uuidB]].
Proof.
  assert (socketA ∈ members streamS1 scenario_state) as Hin
    by (vm_compute; apply list_elem_of_here).
  split; [apply scenario_reachable|]. split; [exact Hin|].
  destruct (step scenario_state (EvDisconnect socketA)) as [[st' out|]|] eqn:Hstep;
    [|vm_compute in Hstep; discriminate..].
  exists st', out. split; [reflexivity|].
  destruct (disconnect_notifies_remaining socketA scenario_state st' out streamS1
              scenario_reachable Hstep Hin) as (nodes & Hnodes & Hrecv).
  rewrite Hrecv. vm_compute in Hnodes.
  inversion Hnodes as [|? n ? ns (info & Hi & Hn) Hrest]; subst.
  inversion Hrest; subst. vm_compute in Hi. injection Hi as <-.
  vm_compute. reflexivity.
Defined.

(** ** Connection *)

Lemma length_substring_0 n s :
  String.length (substring 0 n s) = Nat.min n (String.length s).
Proof.
  revert s. induction n as [|n IH]; intros [|c s]; simpl; try done.
  by rewrite IH.
Qed.

Lemma substring_0_0 s : substring 0 0 s = "".
Proof. by destruct s. Qed.

Lemma substring_append_l a b : substring 0 (String.length a) (String.append a b) = a.
Proof.
  induction a as [|c a IH]; simpl; [apply substring_0_0|]. by rewrite IH.
Qed.

Lemma substring_append_r a b n :
  substring (String.length a) n (String.append a b) = substring 0 n b.
Proof. induction a as [|c a IH]; simpl; [done|]. apply IH. Qed.

Lemma substring_0_all n s : (String.length s ≤ n)%nat → substring 0 n s = s.
Proof.
  revert s. induction n as [|n IH]; intros [|c s]; simpl; try done; [lia|].
  intros Hs. rewrite IH; [done|lia].
Qed.

(** X11: a node id is ["node-"] followed by the first eight characters of
    the uuid: thirteen characters for a uuid of eight characters or more. *)
Theorem generateNodeId_format uuid :
  (8 ≤ String.length uuid)%nat →
  String.length (generateNodeId uuid) = 13
  ∧ substring 0 5 (generateNodeId uuid) = "node-"
  ∧ substring 5 8 (generateNodeId uuid) = substring 0 8 uuid.
Proof.
  intros Hlen. unfold generateNodeId. split_and!.
  - change (String.length (String.append "node-" (substring 0 8 uuid)))
      with (5 + String.length (substring 0 8 uuid))%nat.
    rewrite length_substring_0. lia.
  - apply (substring_append_l "node-").
  - rewrite (substring_append_r "node-"). apply substring_0_all.
    rewrite length_substring_0. lia.
Qed.

Lemma generateNodeId_format_witness :
  (8 ≤ String.length uuidA)%nat ∧ String.length (generateNodeId uuidA) = 13.
Proof.
  assert (8 ≤ String.length uuidA)%nat as H by (vm_compute; lia).
  split; [exact H|]. exact (proj1 (generateNodeId_format uuidA H)).
Defined.

(** X12: a new connection gets an entry with its node id and no stream, and
    is a member of nothing; it is sent its node id and nothing else is
    sent to anybody; no stream changes. *)
Theorem connection_postcondition x uuid st st' out :
  reachable st → step st (EvConnect x uuid) = Some (Done st' out) →
  out = [ToSocket x (NodeAssigned (generateNodeId uuid))]
  ∧ nodeMap st !! x = None
  ∧ nodeMap st' = <[x := Node.mk (generateNodeId uuid) None]> (nodeMap st)
  ∧ streams st' = streams st
  ∧ ¬ has_membership x st'.
Proof.
  intros Hwf%reachable_wf Hstep. simpl in Hstep.
  destruct (sockets st !! x) eqn:Hx; [done|]. injection Hstep as <- <-.
  assert (nodeMap st !! x = None) as Hn.
  { destruct (nodeMap st !! x) as [info|] eqn:Hi; [|done].
    apply (wf_registered st Hwf) in Hi. congruence. }
  split_and!; try done. intros [s Hs]. obs_simpl.
  destruct (wf_member st Hwf x s Hs) as (info & Hi & _). congruence.
Qed.

Lemma connection_postcondition_witness :
  reachable init
  ∧ ∃ st',
      step init (EvConnect socketA uuidA)
      = Some (Done st' [ToSocket socketA (NodeAssigned (generateNodeId uuidA))])
      ∧ ¬ has_membership socketA st'.
Proof.
  split; [apply reachable_init|].
  destruct (step init (EvConnect socketA uuidA)) as [[st' out|]|] eqn:Hstep;
    [|vm_compute in Hstep; discriminate..].
  destruct (connection_postcondition socketA uuidA init st' out reachable_init Hstep)
    as (-> & _ & _ & _ & Hno).
  exists st'. split; [reflexivity|exact Hno].
Defined.

(** ** The node id of a connection *)

Lemma step_sockets st ev o :
  step st ev = Some o →
  sockets (final_state o)
  = match ev with
    | EvConnect y u => <[y := generateNodeId u]> (sockets st)
    | EvDisconnect y => delete y (sockets st)
    | _ => sockets st
    end.
Proof.
  intros Hstep.
  destruct ev as [x u|x data u now|x data|x|x data now|x|x]; simpl in Hstep.
  - destruct (sockets st !! x); [done|]. by simplify_eq.
  - destruct (sockets st !! x); [|done]. simpl in Hstep. simplify_eq.
    unfold streamCreate. destruct (negb (object_coercible data)); [done|].
    by destruct (negb _ || negb _).
  - destruct (sockets st !! x) as [n|]; [|done]. simpl in Hstep. simplify_eq.
    destruct (object_coercible data) eqn:Hd.
    + rewrite streamJoin_cases by done.
      destruct (streams_get _ st) as [[k stream]|]; [|done].
      destruct (strict_eq _ _); [|done].
      unfold joined. cbn [final_state]. obs_simpl. apply detached_sockets.
    + unfold streamJoin. by rewrite Hd.
  - destruct (sockets st !! x) as [n|]; [|done]. simpl in Hstep. simplify_eq.
    rewrite streamLeave_cases. destruct (current_streamId _); [|done].
    unfold left. cbn [final_state]. obs_simpl. apply detached_sockets.
  - destruct (sockets st !! x); [|done]. simpl in Hstep. simplify_eq.
    by rewrite logPush_state.
  - destruct (sockets st !! x); [|done]. simpl in Hstep. by simplify_eq.
  - destruct (sockets st !! x); [|done]. simpl in Hstep.
    rewrite onDisconnect_cases in Hstep. obs_simpl.
    destruct (nodeMap st !! x); simplify_eq; cbn [final_state]; [|by obs_simpl].
    unfold disconnected. obs_simpl. by rewrite detached_sockets.
Qed.

(** X13: an operation never changes the node id of a connection that is
    registered before and after it: joins and leaves rewrite the entry but
    keep the id the connection was given. *)
Theorem nodeId_stable st ev st' out x info info' :
  reachable st → env_ok st ev → step st ev = Some (Done st' out) →
  nodeMap st !! x = Some info → nodeMap st' !! x = Some info' →
  Node.nodeId info' = Node.nodeId info.
Proof.
  intros Hreach Henv Hstep Hi Hi'.
  pose proof (reachable_wf st Hreach) as Hwf.
  pose proof (wf_step st ev st' out Hwf Henv Hstep) as Hwf'.
  apply (wf_registered st Hwf) in Hi. apply (wf_registered st' Hwf') in Hi'.
  pose proof (step_sockets st ev _ Hstep) as Hs. cbn [final_state] in Hs.
  rewrite Hs in Hi'. destruct ev as [y u|y| | | | |y]; try congruence.
  - simpl in Hstep. destruct (decide (y = x)) as [->|Hne].
    + by rewrite Hi in Hstep.
    + rewrite lookup_insert_ne in Hi' by done. congruence.
  - apply lookup_delete_Some in Hi' as [_ Hi']. congruence.
Qed.

Lemma nodeId_stable_witness :
  reachable scenario_state
  ∧ ∃ st' out info',
      step scenario_state (EvLeave socketA) = Some (Done st' out)
      ∧ nodeMap st' !! socketA = Some info'
      ∧ Node.nodeId info' = generateNodeId uuidA.
Proof.
  split; [apply scenario_reachable|].
  destruct (step scenario_state (EvLeave socketA)) as [[st' out|]|] eqn:Hstep;
    [|vm_compute in Hstep; discriminate..].
  assert (nodeMap st' !! socketA = Some (Node.mk (generateNodeId uuidA) None)) as Hi'.
  { vm_compute in Hstep. injection Hstep as <- _. vm_compute. reflexivity. }
  exists st', out, (Node.mk (generateNodeId uuidA) None). split; [reflexivity|].
  split; [exact Hi'|].
  refine (nodeId_stable scenario_state (EvLeave socketA) st' out socketA
            (Node.mk (generateNodeId uuidA) (Some streamS1)) _
            scenario_reachable I Hstep _ Hi').
  vm_compute. reflexivity.
Defined.

(** ** Who hears of a request *)

Lemma received_other_socket y x ms :
  y ≠ x → received any_msg y (map (ToSocket x) ms) = [].
Proof.
  intros Hne. induction ms as [|m ms IH]; [done|].
  change (map (ToSocket x) (m :: ms)) with ([ToSocket x m] ++ map (ToSocket x) ms).
  rewrite received_app, received_socket, IH, decide_False by congruence. done.
Qed.

(** X14: a create, a list, a join that fails and a push that fails are
    answered to the requester alone: no other connection receives
    anything. *)
Theorem requests_answered_privately x y nodeId data uuid now st :
  y ≠ x →
  received any_msg y (emitted (streamCreate x data uuid now st)) = []
  ∧ received any_msg y (emitted (streamList x st)) = []
  ∧ (¬ join_succeeds x (streamJoin x nodeId data st) →
     received any_msg y (emitted (streamJoin x nodeId data st)) = [])
  ∧ (¬ push_succeeds x (logPush x data now st) →
     received any_msg y (emitted (logPush x data now st)) = []).
Proof.
  intros Hne. split_and!.
  - unfold streamCreate. destruct (negb (object_coercible data)); [done|].
    destruct (negb _ || negb _); cbn [emitted];
      by apply (received_other_socket y x [_]).
  - by apply (received_other_socket y x [_]).
  - destruct (object_coercible data) eqn:Hd.
    + rewrite streamJoin_cases by done.
      destruct (streams_get _ st) as [[k stream]|];
        [|intros _; by apply (received_other_socket y x [_])].
      destruct (strict_eq _ _);
        [|intros _; by apply (received_other_socket y x [_])].
      intros []. exists k, (Stream.name stream). cbn [emitted].
      rewrite elem_of_app. right. apply list_elem_of_here.
    + unfold streamJoin. by rewrite Hd.
  - unfold logPush, push_succeeds. destruct (nodeMap st !! x);
      [|intros _; by apply (received_other_socket y x [_])].
    destruct (current_streamId _);
      [|intros _; by apply (received_other_socket y x [_])].
    destruct (negb (object_coercible data)); [done|].
    destruct (negb (truthy _));
      [intros _; by apply (received_other_socket y x [_])|].
    intros []. cbn [emitted]. apply list_elem_of_further, list_elem_of_here.
Qed.

Lemma requests_answered_privately_witness :
  socketB ≠ socketA
  ∧ received any_msg socketB
      (emitted (streamJoin socketA (generateNodeId uuidA) (join_alpha "wrong")
                  scenario_state)) = [].
Proof.
  assert (socketB ≠ socketA) as Hne by discriminate.
  split; [exact Hne|].
  refine (proj1 (proj2 (proj2 (requests_answered_privately socketA socketB
            (generateNodeId uuidA) (join_alpha "wrong") uuidB 0 scenario_state Hne))) _).
  intros (k & name & Hin). vm_compute in Hin.
  apply list_elem_of_singleton in Hin. discriminate.
Defined.

(** ** Listing the streams *)

Lemma jsmap_alter_keys {V} (f : V → V) k (m : JsMap V) : (jsmap_alter f k m).*1 = m.*1.
Proof.
  induction m as [|[k0 v0] m IH]; [done|]. cbn [jsmap_alter].
  case_decide; rewrite !fmap_cons; [done|]. by rewrite IH.
Qed.

Lemma jsmap_get_None_keys {V} k (m : JsMap V) : jsmap_get k m = None ↔ k ∉ m.*1.
Proof.
  induction m as [|[k0 v0] m IH]; simpl.
  - split; [intros _; apply not_elem_of_nil|done].
  - rewrite not_elem_of_cons. case_decide; [|tauto]. split; [done|tauto].
Qed.

Lemma jsmap_set_keys_NoDup {V} k (v : V) (m : JsMap V) :
  NoDup m.*1 → NoDup (jsmap_set k v m).*1.
Proof.
  destruct (jsmap_get k m) as [w|] eqn:Hk.
  - intros Hm. replace (jsmap_set k v m).*1 with m.*1; [done|].
    clear Hm. induction m as [|[k1 v1] m IH]; [done|].
    cbn [jsmap_set jsmap_get] in *.
    case_decide; rewrite !fmap_cons; cbn [fst]; [congruence|]. f_equal. by apply IH.
  - rewrite jsmap_set_fresh by done. rewrite fmap_app. simpl.
    intros Hm. apply NoDup_app. split_and!; [done| |apply NoDup_singleton].
    intros y Hy ->%list_elem_of_singleton. by apply jsmap_get_None_keys in Hk.
Qed.

Lemma jsmap_get_elem_of {V} k (v : V) (m : JsMap V) :
  NoDup m.*1 → (k, v) ∈ m ↔ jsmap_get k m = Some v.
Proof.
  induction m as [|[k0 v0] m IH]; simpl.
  - intros _. split; [by intros ?%elem_of_nil|done].
  - intros [Hk0 Hm]%NoDup_cons. rewrite elem_of_cons. case_decide as Hk.
    + subst k0. split.
      * intros [[= ->]|Hin]; [done|]. destruct Hk0.
        apply list_elem_of_fmap. by exists (k, v).
      * intros [= ->]. by left.
    + rewrite IH by done. split; [|tauto]. intros [[= -> ->]|?]; done.
Qed.

Lemma step_keys_NoDup st ev o :
  step st ev = Some o → NoDup (streams st).*1 → NoDup (streams (final_state o)).*1.
Proof.
  intros Hstep Hst.
  assert (∀ x b, (streams (detached x b st).1).*1 = (streams st).*1) as Hdet.
  { intros x b. unfold detached. destruct (current_streamId _) as [old|]; [|done].
    cbn [fst]. rewrite remove_streams. cbn [streams mutate_nodes set_streams].
    apply jsmap_alter_keys. }
  destruct ev as [x u|x data u now|x data|x|x data now|x|x]; simpl in Hstep.
  - destruct (sockets st !! x); [done|]. by simplify_eq.
  - destruct (sockets st !! x); [|done]. simpl in Hstep. simplify_eq.
    unfold streamCreate. destruct (negb (object_coercible data)); [done|].
    destruct (negb _ || negb _); [done|].
    cbn [final_state streams set_streams]. by apply jsmap_set_keys_NoDup.
  - destruct (sockets st !! x) as [n|]; [|done]. simpl in Hstep. simplify_eq.
    destruct (object_coercible data) eqn:Hd.
    + rewrite streamJoin_cases by done.
      destruct (streams_get _ st) as [[k stream]|]; [|done].
      destruct (strict_eq _ _); [|done].
      unfold joined. cbn [final_state streams set_nodeMap socket_join set_rooms mutate_nodes
                            set_streams].
      by rewrite jsmap_alter_keys, Hdet.
    + unfold streamJoin. by rewrite Hd.
  - destruct (sockets st !! x) as [n|]; [|done]. simpl in Hstep. simplify_eq.
    rewrite streamLeave_cases. destruct (current_streamId _); [|done].
    unfold left. cbn [final_state streams set_nodeMap]. by rewrite Hdet.
  - destruct (sockets st !! x); [|done]. simpl in Hstep. simplify_eq.
    by rewrite logPush_state.
  - destruct (sockets st !! x); [|done]. simpl in Hstep. by simplify_eq.
  - destruct (sockets st !! x); [|done]. simpl in Hstep.
    rewrite onDisconnect_cases in Hstep.
    change (nodeMap (socket_close x st)) with (nodeMap st) in Hstep.
    destruct (nodeMap st !! x); simplify_eq; cbn [final_state]; [|done].
    unfold disconnected. cbn [streams set_nodeMap].
    unfold detached. destruct (current_streamId _) as [old|]; [|done].
    cbn [fst]. rewrite remove_streams. cbn [streams mutate_nodes set_streams].
    by rewrite jsmap_alter_keys.
Qed.

Lemma reachable_keys_NoDup st : reachable st → NoDup (streams st).*1.
Proof.
  induction 1 as [|st ev st' out _ IH _ Hstep]; [constructor|].
  apply (step_keys_NoDup st ev _ Hstep IH).
Qed.

(** X15: the stream list names every registered stream once, in the order
    the streams were created, each with its name, creation time and the
    number of its members; it is sent to the requester and the state is
    unchanged. *)
Theorem streamList_complete x st :
  reachable st →
  ∃ entries,
    streamList x st = Done st [ToSocket x (StreamList entries)]
    ∧ (λ e, e.1.1.1) <$> entries = (streams st).*1
    ∧ NoDup ((λ e, e.1.1.1) <$> entries)
    ∧ ∀ id name count created,
        (id, name, count, created) ∈ entries
        ↔ ∃ stream, jsmap_get id (streams st) = Some stream
                    ∧ name = Stream.name stream
                    ∧ count = length (members id st)
                    ∧ created = Stream.createdAt stream.
Proof.
  intros Hreach. pose proof (reachable_keys_NoDup st Hreach) as Hnd.
  eexists. split; [reflexivity|].
  assert ((λ e : string * JsValue * nat * Z, e.1.1.1)
            <$> map (λ '(id, stream),
                       (id, Stream.name stream, length (Stream.nodes stream),
                        Stream.createdAt stream)) (streams st)
          = (streams st).*1) as Hkeys.
  { generalize (streams st). intros m. induction m as [|[k s] m IH]; [done|].
    cbn [map]. rewrite !fmap_cons. cbn [fst]. f_equal. apply IH. }
  split_and!; [done|by rewrite Hkeys|].
  intros id name count created. rewrite list_elem_of_In, in_map_iff. split.
  - intros ([k stream] & [= <- <- <- <-] & Hin).
    apply list_elem_of_In, (jsmap_get_elem_of _ _ _ Hnd) in Hin.
    exists stream. unfold members. by rewrite Hin.
  - intros (stream & Hget & -> & -> & ->). exists (id, stream).
    unfold members. rewrite Hget. split; [done|].
    by apply list_elem_of_In, (jsmap_get_elem_of _ _ _ Hnd).
Qed.

Lemma streamList_complete_witness :
  reachable scenario_state
  ∧ ∃ entries,
      streamList socketB scenario_state
      = Done scenario_state [ToSocket socketB (StreamList entries)]
      ∧ (streamS1, JStr "alpha", 2%nat, 1700000000000%Z) ∈ entries.
Proof.
  split; [apply scenario_reachable|].
  destruct (streamList_complete socketB scenario_state scenario_reachable)
    as (entries & Hlist & _ & _ & Hin).
  exists entries. split; [exact Hlist|]. apply Hin.
  eexists. split; [vm_compute; reflexivity|]. split_and!; reflexivity.
Defined.

(** ** The client library *)

Lemma receive_wire m c :
  ∃ effects, Client.receive (wire m).1 (wire m).2 c = Some (client_update m c, effects).
Proof.
  destruct m; cbn [wire fst snd client_update]; unfold Client.receive;
    repeat (rewrite decide_False by discriminate);
    try (rewrite decide_True by reflexivity); cbn; eauto.
  - destruct (Client.callbacks c !! "onNodeListUpdated") as [[f|]|]; eauto.
Qed.

Lemma feed_wire ms : ∀ c, feed c ms = Some (foldl (λ c m, client_update m c) c ms).
Proof.
  induction ms as [|m ms IH]; intros c; [done|]. cbn [feed foldl].
  destruct (receive_wire m c) as [effects ->]. apply IH.
Qed.

Lemma client_update_id m c : changes_client m = false → client_update m c = c.
Proof. by destruct m. Qed.

Lemma foldl_update_deliver x m (l : list string) c :
  foldl (λ c m, client_update m c) c (flat_map (deliver any_msg x m) l)
  = foldl (λ c m, client_update m c) c (flat_map (deliver changes_client x m) l).
Proof.
  revert c. induction l as [|y l IH]; intros c; [done|].
  cbn [flat_map]. rewrite !foldl_app, <- IH. f_equal.
  unfold deliver. case_decide; [|done]. cbn [any_msg].
  destruct (changes_client m) eqn:Hm; [done|]. cbn [foldl]. by apply client_update_id.
Qed.

Lemma foldl_update_received x out : ∀ c,
  foldl (λ c m, client_update m c) c (received any_msg x out)
  = foldl (λ c m, client_update m c) c (received changes_client x out).
Proof.
  induction out as [|e out IH]; intros c; [done|].
  change (e :: out) with ([e] ++ out). rewrite !received_app, !foldl_app, <- IH.
  f_equal. unfold received. cbn [flat_map]. rewrite !app_nil_r.
  destruct e as [y m|r l m].
  - pose proof (foldl_update_deliver x m [y] c) as H.
    cbn [flat_map] in H. by rewrite !app_nil_r in H.
  - apply foldl_update_deliver.
Qed.

Lemma detached_changes x y b st : received changes_client x (detached y b st).2 = [].
Proof.
  unfold detached, remove_from_stream. destruct (current_streamId _) as [old|]; [|done].
  destruct (jsmap_get old (streams st)); [|done]. cbn [snd].
  unfold broadcastNodeList. rewrite received_room. by case_decide.
Qed.

(** The messages of a step that change the variables of the client behind
    [x]. *)
Lemma step_changes x st ev o :
  step st ev = Some o →
  received changes_client x (emitted o)
  = match ev with
    | EvConnect y u => if decide (y = x) then [NodeAssigned (generateNodeId u)] else []
    | EvJoin y data =>
        if decide (y = x) then
          match streams_get (get_prop "streamId" data) st with
          | Some (k, stream) =>
              if object_coercible data
                 && strict_eq (Stream.passwordHash stream) (get_prop "passwordHash" data)
              then [JoinResultOk k (Stream.name stream)] else []
          | None => []
          end
        else []
    | EvLeave y => if decide (y = x) then [LeaveResultOk] else []
    | _ => []
    end.
Proof.
  intros Hstep.
  destruct ev as [y u|y data u now|y data|y|y data now|y|y]; simpl in Hstep.
  - destruct (sockets st !! y); [done|]. simplify_eq. cbn [emitted].
    by rewrite received_socket.
  - destruct (sockets st !! y); [|done]. simpl in Hstep. simplify_eq.
    unfold streamCreate. destruct (negb (object_coercible data)); [done|].
    destruct (negb _ || negb _); cbn [emitted]; rewrite received_socket;
      by case_decide.
  - destruct (sockets st !! y) as [n|]; [|done]. simpl in Hstep. simplify_eq.
    destruct (object_coercible data) eqn:Hd.
    + rewrite streamJoin_cases by done.
      destruct (streams_get _ st) as [[k stream]|]; cbn [emitted andb].
      * destruct (strict_eq _ _); cbn [emitted].
        -- rewrite received_app, detached_changes.
           change [ToSocket y (JoinResultOk k (Stream.name stream));
                   broadcastNodeList k (joined y n k st)]
             with ([ToSocket y (JoinResultOk k (Stream.name stream))]
                   ++ [broadcastNodeList k (joined y n k st)]).
           rewrite received_app, received_socket. unfold broadcastNodeList.
           rewrite received_room. cbn [changes_client app].
           repeat case_decide; reflexivity.
        -- rewrite received_socket. by repeat case_decide.
      * rewrite received_socket. by repeat case_decide.
    + unfold streamJoin. rewrite Hd. cbn [negb emitted andb].
      case_decide; [|done]. by destruct (streams_get _ st) as [[k stream]|].
  - destruct (sockets st !! y) as [n|]; [|done]. simpl in Hstep. simplify_eq.
    rewrite streamLeave_cases. destruct (current_streamId _); cbn [emitted].
    + by rewrite received_app, detached_changes, received_socket.
    + by rewrite received_socket.
  - destruct (sockets st !! y); [|done]. simpl in Hstep. simplify_eq.
    unfold logPush. destruct (nodeMap st !! y);
      [|cbn [emitted]; rewrite received_socket; by case_decide].
    destruct (current_streamId _);
      [|cbn [emitted]; rewrite received_socket; by case_decide].
    destruct (negb (object_coercible data)); [done|].
    destruct (negb (truthy _)); cbn [emitted].
    + rewrite received_socket. by case_decide.
    + change [ToRoom ?r ?l ?m; ToSocket y PushResultOk]
        with ([ToRoom r l m] ++ [ToSocket y PushResultOk]).
      rewrite received_app, received_room, received_socket.
      by repeat case_decide.
  - destruct (sockets st !! y); [|done]. simpl in Hstep. simplify_eq.
    cbn [emitted streamList]. rewrite received_socket. by case_decide.
  - destruct (sockets st !! y); [|done]. simpl in Hstep.
    rewrite onDisconnect_cases in Hstep.
    destruct (nodeMap (socket_close y st) !! y); simplify_eq; cbn [emitted]; [|done].
    apply detached_changes.
Qed.

Lemma foldl_update_fields ms : ∀ c,
  Client.currentStreamId (foldl (λ c m, client_update m c) c ms)
  = foldl view_update (Client.currentStreamId c) ms
  ∧ Client.socket (foldl (λ c m, client_update m c) c ms) = Client.socket c
  ∧ Client.nodeId (foldl (λ c m, client_update m c) c ms)
    = foldl (λ v m, match m with NodeAssigned n => JStr n | _ => v end)
        (Client.nodeId c) ms.
Proof.
  induction ms as [|m ms IH]; intros c; [done|]. cbn [foldl].
  destruct (IH (client_update m c)) as (-> & -> & ->). by destruct m.
Qed.

Lemma server_view_lookup x st st' :
  nodeMap st' !! x = nodeMap st !! x → server_view x st' = server_view x st.
Proof. unfold server_view. by intros ->. Qed.

(** How a step moves the server's entry for [x], read off the messages it
    sends to [x]. *)
Lemma step_server_view x st ev st' out :
  wf st → step st ev = Some (Done st' out) →
  server_view x st'
  = if closes x ev then JNull
    else foldl view_update (server_view x st) (received changes_client x out).
Proof.
  intros Hwf Hstep.
  pose proof (step_changes x st ev _ Hstep) as Hch. cbn [emitted] in Hch.
  rewrite Hch. clear Hch.
  destruct ev as [y u|y data u now|y data|y|y data now|y|y]; simpl in Hstep;
    cbn [closes].
  - destruct (sockets st !! y) eqn:Hy; [done|]. injection Hstep as <- <-.
    unfold server_view, onConnection. obs_simpl. case_decide as Hyx; cbn [foldl].
    + subst y. rewrite lookup_insert_eq. cbn.
      destruct (nodeMap st !! x) as [info|] eqn:Hi; [|done].
      apply (wf_registered st Hwf) in Hi. congruence.
    + by rewrite lookup_insert_ne.
  - destruct (sockets st !! y); [|done]. simpl in Hstep. injection Hstep as Hstep.
    cbn [foldl]. apply server_view_lookup.
    unfold streamCreate in Hstep. destruct (negb (object_coercible data)); [done|].
    destruct (negb _ || negb _); by simplify_eq.
  - destruct (sockets st !! y) as [n|]; [|done]. simpl in Hstep.
    injection Hstep as Hstep.
    destruct (object_coercible data) eqn:Hd;
      [|unfold streamJoin in Hstep; by rewrite Hd in Hstep].
    rewrite streamJoin_cases in Hstep by done. cbn [andb].
    destruct (streams_get _ st) as [[k stream]|];
      [|simplify_eq; by case_decide].
    destruct (strict_eq _ _); [|simplify_eq; by case_decide].
    injection Hstep as <- _. unfold server_view, joined. obs_simpl.
    rewrite detached_nodeMap. case_decide as Hyx; cbn [foldl view_update].
    + subst y. by rewrite lookup_insert_eq.
    + by rewrite lookup_insert_ne.
  - destruct (sockets st !! y) as [n|]; [|done]. simpl in Hstep.
    injection Hstep as Hstep. rewrite streamLeave_cases in Hstep.
    destruct (current_streamId (nodeMap st !! y)) as [s|] eqn:Hc.
    + injection Hstep as <- _. unfold server_view, left. obs_simpl.
      rewrite detached_nodeMap. case_decide as Hyx; cbn [foldl view_update].
      * subst y. by rewrite lookup_insert_eq.
      * by rewrite lookup_insert_ne.
    + injection Hstep as <- _. case_decide as Hyx; cbn [foldl view_update]; [|done].
      subst y. unfold server_view.
      destruct (nodeMap st !! x) as [info|] eqn:Hi; [|done].
      destruct (Node.streamId info) as [s|] eqn:Hs; [|done].
      by rewrite (wf_current_streamId st x info s Hwf Hi Hs) in Hc.
  - destruct (sockets st !! y); [|done]. simpl in Hstep. injection Hstep as Hstep.
    pose proof (logPush_state y data now st) as Hp. rewrite Hstep in Hp.
    cbn [final_state] in Hp. by subst.
  - destruct (sockets st !! y); [|done]. simpl in Hstep.
    unfold streamList in Hstep. by simplify_eq.
  - assert (step st (EvDisconnect y) = Some (Done st' out)) as Hstep' by done.
    destruct (step_disconnect st y st' out Hwf Hstep') as [-> _].
    unfold server_view, disconnected. obs_simpl. rewrite detached_nodeMap. obs_simpl.
    destruct (decide (y = x)) as [->|Hne].
    + rewrite bool_decide_eq_true_2 by done. by rewrite lookup_delete_eq.
    + rewrite bool_decide_eq_false_2 by done. by rewrite lookup_delete_ne.
Qed.

Lemma in_sync_step x st ev st' out c :
  wf st → step st ev = Some (Done st' out) → in_sync x st c →
  ∃ c', client_step x ev out c = Some c' ∧ in_sync x st' c'.
Proof.
  intros Hwf Hstep (Hview & Hlive & Hdead).
  pose proof (step_server_view x st ev st' out Hwf Hstep) as Hview'.
  pose proof (step_changes x st ev _ Hstep) as Hch. cbn [emitted] in Hch.
  pose proof (step_sockets st ev _ Hstep) as Hsock. cbn [final_state] in Hsock.
  unfold client_step. rewrite feed_wire, foldl_update_received.
  eexists. split; [reflexivity|].
  set (ms := received changes_client x out) in *.
  destruct (opens x ev) eqn:Hopen.
  - (* the connection of [x] *)
    destruct ev as [y u| | | | | |]; try done.
    apply bool_decide_eq_true_1 in Hopen as ->.
    rewrite decide_True by done. cbn [closes] in Hview'.
    rewrite decide_True in Hch by done.
    simpl in Hstep. destruct (sockets st !! x) eqn:Hx; [done|].
    specialize (Hdead eq_refl).
    set (c1 := (Client.onConnect (Client.connect JUndefined c).1).1).
    assert (Client.currentStreamId c1 = Client.currentStreamId c
            ∧ Client.socket c1 = Some true) as [Hc1 Hs1].
    { subst c1. unfold Client.connect.
      destruct (Client.socket c) as [[|]|] eqn:Hs; [done|done..]. }
    destruct (foldl_update_fields ms c1) as (Hf1 & Hf2 & Hf3).
    split_and!.
    + rewrite Hf1, Hview', Hc1, Hview. done.
    + intros n Hn. rewrite Hsock, lookup_insert_eq in Hn. injection Hn as <-.
      rewrite Hf2, Hf3, Hch. done.
    + rewrite Hsock, lookup_insert_eq. done.
  - (* any other event *)
    set (c1 := match ev with
               | EvConnect y _ =>
                   if decide (y = x)
                   then (Client.onConnect (Client.connect JUndefined c).1).1 else c
               | _ => c
               end).
    assert (c1 = c) as ->.
    { subst c1. destruct ev as [y u| | | | | |]; try done.
      case_decide; [|done]. subst y. cbn in Hopen.
      by rewrite bool_decide_eq_true_2 in Hopen. }
    destruct (foldl_update_fields ms c) as (Hf1 & Hf2 & Hf3).
    assert (foldl (λ v m, match m with NodeAssigned n => JStr n | _ => v end)
              (Client.nodeId c) ms = Client.nodeId c) as Hid.
    { rewrite Hch.
      destruct ev as [y u|y data u now|y data|y|y data now|y|y]; try done.
      - rewrite decide_False; [done|]. intros ->. cbn in Hopen.
        by rewrite bool_decide_eq_true_2 in Hopen.
      - case_decide; [|done]. destruct (streams_get _ st) as [[k stream]|]; [|done].
        by destruct (_ && _).
      - by case_decide. }
    destruct (closes x ev) eqn:Hclose.
    + destruct ev as [| | | | | |y]; try done.
      apply bool_decide_eq_true_1 in Hclose as ->.
      rewrite decide_True by done.
      split_and!.
      * by rewrite Hview'.
      * intros n. rewrite Hsock, lookup_delete_eq. done.
      * intros _. cbn. rewrite Hf2. by destruct (Client.socket c) as [[|]|].
    + assert (sockets st' !! x = sockets st !! x) as Hsx.
      { rewrite Hsock. destruct ev as [y u| | | | | |y]; try done.
        - rewrite lookup_insert_ne; [done|]. intros ->. cbn in Hopen.
          by rewrite bool_decide_eq_true_2 in Hopen.
        - rewrite lookup_delete_ne; [done|]. intros ->. cbn in Hclose.
          by rewrite bool_decide_eq_true_2 in Hclose. }
      assert (match ev with
              | EvDisconnect y =>
                  if decide (y = x)
                  then (Client.onDisconnect (JStr "transport close")
                          (foldl (λ c m, client_update m c) c ms)).1
                  else foldl (λ c m, client_update m c) c ms
              | _ => foldl (λ c m, client_update m c) c ms
              end = foldl (λ c m, client_update m c) c ms) as ->.
      { destruct ev as [| | | | | |y]; try done. rewrite decide_False; [done|].
        intros ->. cbn in Hclose. by rewrite bool_decide_eq_true_2 in Hclose. }
      split_and!.
      * by rewrite Hf1, Hview', Hview.
      * intros n Hn. rewrite Hsx in Hn. rewrite Hf2, Hf3, Hid. by apply Hlive.
      * rewrite Hsx, Hf2. apply Hdead.
Qed.

Lemma in_sync_initial x : in_sync x init Client.initial.
Proof. split_and!; done. Qed.

Lemma lockstep_in_sync x evs : ∀ st c,
  reachable st → valid_trace st evs → in_sync x st c →
  ∃ c', lockstep x st c evs = Some ((run st evs).1, c')
        ∧ in_sync x (run st evs).1 c'.
Proof.
  induction evs as [|ev evs IH]; intros st c Hst Hv Hsync; [by exists c|].
  cbn [valid_trace lockstep run] in *. destruct Hv as [Henv Hv].
  destruct (step st ev) as [[st' out|]|] eqn:Hstep; try done.
  destruct (in_sync_step x st ev st' out c (reachable_wf st Hst) Hstep Hsync)
    as (c1 & -> & Hsync1).
  destruct (IH st' c1 (reachable_step _ _ _ _ Hst Henv Hstep) Hv Hsync1)
    as (c' & Hl & Hs).
  exists c'. destruct (run st' evs) as [st'' out'']. done.
Qed.

(** X16: whatever the connections do, the client behind a socket and the
    server stay in step: the client handles every message of the server
    without an exception, its [currentStreamId] is the stream id of the
    server's entry for the socket ([null] when there is none), and while
    the server holds the socket the client is connected and has the node
    id the server gave it. *)
Theorem client_mirrors_server x evs :
  valid_trace init evs →
  ∃ c,
    lockstep x init Client.initial evs = Some ((run init evs).1, c)
    ∧ Client.currentStreamId c = server_view x (run init evs).1
    ∧ (∀ n, sockets (run init evs).1 !! x = Some n →
         Client.nodeId c = JStr n ∧ Client.isConnected c = JBool true)
    ∧ (sockets (run init evs).1 !! x = None → truthy (Client.isConnected c) = false).
Proof.
  intros Hv.
  destruct (lockstep_in_sync x evs init Client.initial reachable_init Hv
              (in_sync_initial x)) as (c & Hl & Hview & Hlive & Hdead).
  exists c. split_and!; [done|done| |].
  - intros n Hn. destruct (Hlive n Hn) as [Hid Hs]. split; [done|].
    unfold Client.isConnected. by rewrite Hs.
  - intros Hn. specialize (Hdead Hn). unfold Client.isConnected.
    by destruct (Client.socket c) as [[|]|].
Qed.

Lemma client_mirrors_server_witness :
  valid_trace init scenario
  ∧ ∃ c,
      lockstep socketB init Client.initial scenario = Some (scenario_state, c)
      ∧ Client.currentStreamId c = JStr streamS1
      ∧ Client.nodeId c = JStr (generateNodeId uuidB).
Proof.
  assert (valid_trace init scenario) as Hv by (vm_compute; repeat split).
  split; [exact Hv|].
  destruct (client_mirrors_server socketB scenario Hv) as (c & Hl & Hview & Hlive & _).
  exists c. split; [exact Hl|]. split.
  - rewrite Hview. vm_compute. reflexivity.
  - apply (Hlive (generateNodeId uuidB)). vm_compute. reflexivity.
Defined.

Lemma step_never_throws_on_objects st ev o :
  step st ev = Some o →
  match ev with
  | EvCreate _ data _ _ | EvJoin _ data | EvPush _ data _ => object_coercible data = true
  | _ => True
  end →
  ∃ st' out, o = Done st' out.
Proof.
  intros Hstep Hd.
  destruct ev as [x u|x data u now|x data|x|x data now|x|x]; simpl in Hstep.
  - destruct (sockets st !! x); [done|]. simplify_eq. eauto.
  - destruct (sockets st !! x); [|done]. simpl in Hstep. simplify_eq.
    unfold streamCreate. rewrite Hd. cbn [negb]. destruct (negb _ || negb _); eauto.
  - destruct (sockets st !! x) as [n|]; [|done]. simpl in Hstep. simplify_eq.
    rewrite streamJoin_cases by done.
    destruct (streams_get _ st) as [[k stream]|]; [|eauto].
    destruct (strict_eq _ _); eauto.
  - destruct (sockets st !! x) as [n|]; [|done]. simpl in Hstep. simplify_eq.
    rewrite streamLeave_cases. destruct (current_streamId _); eauto.
  - destruct (sockets st !! x); [|done]. simpl in Hstep. simplify_eq.
    unfold logPush. destruct (nodeMap st !! x); [|eauto].
    destruct (current_streamId _); [|eauto]. rewrite Hd. cbn [negb].
    destruct (negb (truthy _)); eauto.
  - destruct (sockets st !! x); [|done]. simpl in Hstep. simplify_eq.
    unfold streamList. eauto.
  - destruct (sockets st !! x); [|done]. simpl in Hstep.
    destruct (onDisconnect x (socket_close x st)) as [s1 o1]. simplify_eq. eauto.
Qed.

(** X17: whatever its arguments and its state, a request that the client
    library sends is one the server handles without an exception: create,
    join and push always carry an object. *)
Theorem client_requests_never_throw a b c x uuid now event data :
  Client.SocketEmit event data ∈ api_effects a b c →
  ∃ ev, as_server_event x uuid now event data = Some ev
        ∧ ∀ st o, step st ev = Some o → ∃ st' out, o = Done st' out.
Proof.
  unfold api_effects, Client.createStream, Client.joinStream, Client.leaveStream,
    Client.pushLog, Client.listStreams, Client.invoke.
  rewrite !elem_of_app. intros Hin.
  assert (∀ name args, Client.SocketEmit event data
            ∉ match Client.callbacks c !! name with
              | Some (Some f) => [Client.Invoke f args]
              | _ => []
              end) as Hcb.
  { intros name args. destruct (Client.callbacks c !! name) as [[f|]|];
      [|apply not_elem_of_nil..]. rewrite list_elem_of_singleton. discriminate. }
  destruct (negb (truthy (Client.isConnected c))) eqn:Hc.
  { apply negb_true_iff in Hc. rewrite Hc in Hin.
    destruct Hin as [H|[H|[H|[H|H]]]];
      try (by apply Hcb in H); by apply elem_of_nil in H. }
  apply negb_false_iff in Hc. rewrite Hc in Hin.
  destruct Hin as [H|[H|[H|[H|H]]]].
  - apply list_elem_of_singleton in H. injection H as -> ->.
    eexists. split; [reflexivity|]. intros st o Hstep.
    by apply (step_never_throws_on_objects st _ o Hstep).
  - apply list_elem_of_singleton in H. injection H as -> ->.
    eexists. split; [reflexivity|]. intros st o Hstep.
    by apply (step_never_throws_on_objects st _ o Hstep).
  - apply list_elem_of_singleton in H. injection H as -> ->.
    eexists. split; [reflexivity|]. intros st o Hstep.
    by apply (step_never_throws_on_objects st _ o Hstep).
  - destruct (negb (truthy (Client.currentStreamId c))); [by apply Hcb in H|].
    apply list_elem_of_singleton in H. injection H as -> ->.
    eexists. split; [reflexivity|]. intros st o Hstep.
    by apply (step_never_throws_on_objects st _ o Hstep).
  - apply list_elem_of_singleton in H. injection H as -> ->.
    eexists. split; [reflexivity|]. intros st o Hstep.
    by apply (step_never_throws_on_objects st _ o Hstep).
Qed.

Lemma client_requests_never_throw_witness :
  Client.SocketEmit "stream:join"
    (Some (JObj [("streamId", JStr streamS1); ("passwordHash", JUndefined)]))
  ∈ api_effects (JStr streamS1) JUndefined connected_client
  ∧ ∃ ev, as_server_event socketA uuidA 0 "stream:join"
            (Some (JObj [("streamId", JStr streamS1); ("passwordHash", JUndefined)]))
          = Some ev
          ∧ ∀ st o, step st ev = Some o → ∃ st' out, o = Done st' out.
Proof.
  assert (Client.SocketEmit "stream:join"
            (Some (JObj [("streamId", JStr streamS1); ("passwordHash", JUndefined)]))
          ∈ api_effects (JStr streamS1) JUndefined connected_client) as Hin.
  { vm_compute. apply list_elem_of_further, list_elem_of_here. }
  split; [exact Hin|].
  exact (client_requests_never_throw (JStr streamS1) JUndefined connected_client
           socketA uuidA 0 "stream:join" _ Hin).
Defined.

Lemma truthy_server_view x st :
  truthy (server_view x st) = true ↔ is_Some (current_streamId (nodeMap st !! x)).
Proof.
  unfold server_view, current_streamId.
  destruct (nodeMap st !! x) as [info|]; [|split; [done|by intros [? ?]]].
  destruct (Node.streamId info) as [s|]; [|split; [done|by intros [? ?]]].
  case_decide as Hs.
  - subst s. split; [done|by intros [? ?]].
  - split; [by eexists|]. intros _. by apply truthy_nonempty_string.
Qed.

(** X18: for a connected client in step with the server, the guard of
    [pushLog] is exact: the push is sent when the server has the sender in
    a member set, and otherwise the client reports "Not joined to any
    stream" to [onError] and sends nothing, where the server would have
    answered "Not connected to any stream". *)
Theorem pushLog_guard_exact x evs payload level c :
  valid_trace init evs →
  lockstep x init Client.initial evs = Some ((run init evs).1, c) →
  is_Some (sockets (run init evs).1 !! x) →
  (has_membership x (run init evs).1 →
     Client.pushLog payload level c
     = [Client.SocketEmit "log:push"
          (Some (JObj [("payload", payload);
                       ("level", with_default (JStr "INFO") level)]))])
  ∧ (¬ has_membership x (run init evs).1 →
     Client.pushLog payload level c
     = Client.invoke "onError" [JStr "Not joined to any stream"] c
     ∧ ∀ data now,
         push_fails NoStream x (run init evs).1 (logPush x data now (run init evs).1)).
Proof.
  intros Hv Hl [n Hn].
  destruct (lockstep_in_sync x evs init Client.initial reachable_init Hv
              (in_sync_initial x)) as (c0 & Hl0 & Hview & Hlive & _).
  rewrite Hl in Hl0. injection Hl0 as <-.
  destruct (Hlive n Hn) as [_ Hsock].
  assert (Client.isConnected c = JBool true) as Hconn
    by (unfold Client.isConnected; by rewrite Hsock).
  pose proof (valid_trace_reachable evs init reachable_init Hv) as Hreach.
  pose proof (reachable_wf _ Hreach) as Hwf.
  pose proof (wf_has_membership _ x Hwf) as Hmem.
  pose proof (truthy_server_view x (run init evs).1) as Ht.
  unfold Client.pushLog. rewrite Hconn, Hview. cbn [truthy negb]. split.
  - intros Hm%Hmem%Ht. by rewrite Hm.
  - intros Hno. split.
    + destruct (truthy (server_view x (run init evs).1)) eqn:Hs; [|done].
      destruct Hno. by apply Hmem, Ht.
    + intros data now. apply logPush_no_membership.
      destruct (current_streamId _) eqn:Hc; [|done]. destruct Hno.
      apply Hmem. by eexists.
Qed.

Lemma pushLog_guard_exact_witness :
  valid_trace init scenario
  ∧ ∃ c,
      lockstep socketB init Client.initial scenario = Some ((run init scenario).1, c)
      ∧ Client.pushLog (JStr "p1") JUndefined c
        = [Client.SocketEmit "log:push"
             (Some (JObj [("payload", JStr "p1"); ("level", JStr "INFO")]))].
Proof.
  assert (valid_trace init scenario) as Hv by (vm_compute; repeat split).
  split; [exact Hv|].
  destruct (lockstep socketB init Client.initial scenario) as [[st c]|] eqn:Hl;
    [|vm_compute in Hl; discriminate].
  assert (st = (run init scenario).1) as ->.
  { vm_compute in Hl. injection Hl as <- _. vm_compute. reflexivity. }
  exists c. split; [reflexivity|].
  refine (proj1 (pushLog_guard_exact socketB scenario (JStr "p1") JUndefined c Hv Hl _) _).
  - vm_compute. eauto.
  - exists streamS1. vm_compute. apply list_elem_of_further, list_elem_of_here.
Defined.

Lemma api_silent_when_not_connected_aux a b c e :
  truthy (Client.isConnected c) = false →
  e ∈ api_effects a b c → is_socket_emit e = false.
Proof.
  intros Hc. unfold api_effects, Client.createStream, Client.joinStream,
    Client.leaveStream, Client.pushLog, Client.listStreams, Client.invoke.
  rewrite Hc. cbn [negb]. rewrite !elem_of_app.
  destruct (Client.callbacks c !! "onError") as [[f|]|].
  - intros [H|[H|[H|[H|H]]]];
      try (apply list_elem_of_singleton in H; by subst); by apply elem_of_nil in H.
  - intros [H|[H|[H|[H|H]]]]; by apply elem_of_nil in H.
  - intros [H|[H|[H|[H|H]]]]; by apply elem_of_nil in H.
Qed.

(** X19: a client without a connected socket sends nothing: every function
    of the module that talks to the server at most reports to [onError]. *)
Theorem api_silent_when_not_connected a b c e :
  truthy (Client.isConnected c) = false →
  e ∈ api_effects a b c → is_socket_emit e = false.
Proof. apply api_silent_when_not_connected_aux. Qed.

Lemma api_silent_when_not_connected_witness :
  truthy (Client.isConnected Client.initial) = false
  ∧ ∀ e, e ∈ api_effects (JStr "alpha") (JStr "t1") Client.initial →
         is_socket_emit e = false.
Proof.
  split; [reflexivity|]. intros e.
  exact (api_silent_when_not_connected (JStr "alpha") (JStr "t1") Client.initial e
           eq_refl).
Defined.

(** X20: [disconnect()] closes the socket, telling [onDisconnect] if the
    socket was connected, and forgets the socket, the node id and the
    stream; after it nothing is sent to the server any more.  Without a
    socket it does nothing. *)
Theorem disconnect_forgets c :
  let c' := (Client.disconnect c).1 in
  Client.socket c' = None
  ∧ (∀ a b e, e ∈ api_effects a b c' → is_socket_emit e = false)
  ∧ (Client.socket c = None → Client.disconnect c = (c, []))
  ∧ (∀ connected, Client.socket c = Some connected →
       Client.nodeId c' = JNull ∧ Client.currentStreamId c' = JNull
       ∧ Client.callbacks c' = Client.callbacks c
       ∧ (Client.disconnect c).2
         = Client.SocketDisconnect
           :: (if connected
               then Client.invoke "onDisconnect" [JStr "io client disconnect"] c
               else [])).
Proof.
  intros c'. subst c'.
  assert (Client.socket (Client.disconnect c).1 = None) as Hnone.
  { unfold Client.disconnect. destruct (Client.socket c) as [[|]|] eqn:Hs; done. }
  split_and!; [done| | |].
  - intros a b e. apply api_silent_when_not_connected_aux.
    unfold Client.isConnected. by rewrite Hnone.
  - intros Hs. unfold Client.disconnect. by rewrite Hs.
  - intros connected Hs. unfold Client.disconnect. rewrite Hs.
    destruct connected; done.
Qed.

(** X21: [on] replaces the callback of one of the nine names and ignores any
    other name; the set of names never changes. *)
Theorem on_known_names event callback c :
  callbacks_ok c →
  callbacks_ok (Client.on event callback c)
  ∧ (event ∈ Client.callback_names →
     Client.callbacks (Client.on event callback c) !! event = Some callback
     ∧ ∀ name, name ≠ event →
         Client.callbacks (Client.on event callback c) !! name
         = Client.callbacks c !! name)
  ∧ (event ∉ Client.callback_names → Client.on event callback c = c).
Proof.
  intros Hok. unfold Client.on. destruct (decide (is_Some _)) as [Hs|Hs].
  - apply Hok in Hs as Hin. split_and!; [| |done].
    + intros name. cbn. rewrite lookup_insert_is_Some.
      rewrite (Hok name). split; [by intros [<-|[_ ?]]|].
      destruct (decide (event = name)); [by left|by right].
    + intros _. cbn. rewrite lookup_insert_eq. split; [done|].
      intros name Hne. by rewrite lookup_insert_ne.
  - split_and!; [done| |done]. intros Hin. destruct Hs. by apply Hok.
Qed.

Lemma callbacks_ok_initial : callbacks_ok Client.initial.
Proof.
  intros name. unfold Client.initial, Client.callbacks.
  rewrite <- elem_of_dom, dom_list_to_map_L, elem_of_list_to_set.
  unfold Client.callback_names. by cbn.
Qed.

Lemma on_known_names_witness :
  callbacks_ok Client.initial
  ∧ Client.on "onLogReceivedd" (Some 1%nat) Client.initial = Client.initial.
Proof.
  split; [apply callbacks_ok_initial|].
  apply (on_known_names "onLogReceivedd" (Some 1%nat) Client.initial
           callbacks_ok_initial).
  intros Hin. vm_compute in Hin.
  repeat (apply elem_of_cons in Hin as [Hin|Hin]; [discriminate|]).
  by apply elem_of_nil in Hin.
Defined.

(** ** The crypto module of the extension *)

Lemma hex_byte_ok_all b : hex_byte_ok b = true.
Proof. destruct b; vm_compute; reflexivity. Qed.

Lemma hex_byte_shape b :
  ∃ hi lo, hex_byte b = String hi (String lo "")
           ∧ is_hex_digit hi = true ∧ is_hex_digit lo = true
           ∧ unhex_byte hi lo = Some b.
Proof.
  pose proof (hex_byte_ok_all b) as H. unfold hex_byte_ok in H.
  destruct (hex_byte b) as [|hi [|lo [|]]]; try done.
  exists hi, lo. destruct (unhex_byte hi lo) as [b'|]; [|by rewrite andb_false_r in H].
  apply andb_prop in H as [[H1 H2]%andb_prop H3].
  apply Byte.byte_dec_bl in H3. by subst.
Qed.

Lemma append_cons c a b : String.append (String c a) b = String c (String.append a b).
Proof. reflexivity. Qed.

Lemma append_empty_l b : String.append "" b = b.
Proof. reflexivity. Qed.

Lemma append_empty_r s : String.append s "" = s.
Proof. induction s as [|c s IH]; [done|]. by rewrite append_cons, IH. Qed.

Lemma bufferToHex_cons b bs :
  bufferToHex (b :: bs) = String.append (hex_byte b) (bufferToHex bs).
Proof.
  unfold bufferToHex. simpl. destruct (map hex_byte bs) eqn:Hm; simpl.
  - by rewrite append_empty_r.
  - done.
Qed.

Lemma bufferToHex_cons_chars b bs :
  ∃ hi lo, bufferToHex (b :: bs) = String hi (String lo (bufferToHex bs))
           ∧ is_hex_digit hi = true ∧ is_hex_digit lo = true
           ∧ unhex_byte hi lo = Some b.
Proof.
  destruct (hex_byte_shape b) as (hi & lo & Hb & ?).
  exists hi, lo. by rewrite bufferToHex_cons, Hb, !append_cons, append_empty_l.
Qed.

Lemma bufferToHex_inj_aux a b : bufferToHex a = bufferToHex b → a = b.
Proof.
  revert b. induction a as [|x a IH]; intros [|y b] H.
  - done.
  - destruct (bufferToHex_cons_chars y b) as (? & ? & Hy & _). by rewrite Hy in H.
  - destruct (bufferToHex_cons_chars x a) as (? & ? & Hx & _). by rewrite Hx in H.
  - destruct (bufferToHex_cons_chars x a) as (h1 & l1 & Hx & _ & _ & Ux).
    destruct (bufferToHex_cons_chars y b) as (h2 & l2 & Hy & _ & _ & Uy).
    rewrite Hx, Hy in H. injection H as -> -> H.
    rewrite Ux in Uy. injection Uy as ->. f_equal. by apply IH.
Qed.

Lemma bufferToHex_length_aux bs : String.length (bufferToHex bs) = 2 * length bs.
Proof.
  induction bs as [|b bs IH]; [done|].
  destruct (bufferToHex_cons_chars b bs) as (? & ? & -> & _).
  simpl. rewrite IH. lia.
Qed.

(** X22: [bufferToHex] writes every byte as two lowercase hexadecimal digits,
    in order: the result has twice as many characters as the buffer has
    bytes, all of them in [0-9a-f], and the two characters at [2 i] are the
    digits of byte [i]. *)
Theorem bufferToHex_format bs :
  String.length (bufferToHex bs) = 2 * length bs
  ∧ Forall (λ ch, is_hex_digit ch = true) (list_ascii_of_string (bufferToHex bs))
  ∧ ∀ i b, bs !! i = Some b → substring (2 * i) 2 (bufferToHex bs) = hex_byte b.
Proof.
  split_and!.
  - apply bufferToHex_length_aux.
  - induction bs as [|b bs IH]; [constructor|].
    destruct (bufferToHex_cons_chars b bs) as (? & ? & -> & ? & ? & _).
    simpl. by repeat constructor.
  - induction bs as [|b' bs IH]; intros i b Hi; [done|].
    destruct i as [|i]; simpl in Hi.
    + injection Hi as ->. rewrite bufferToHex_cons.
      destruct (hex_byte_shape b) as (hi & lo & -> & _). simpl.
      by destruct (bufferToHex bs).
    + destruct (bufferToHex_cons_chars b' bs) as (? & ? & -> & _).
      replace (2 * S i) with (S (S (2 * i))) by lia.
      rewrite <- (IH _ _ Hi). done.
Qed.

(** X23: [bufferToHex] is injective: buffers that differ have different
    hexadecimal strings. *)
Theorem bufferToHex_inj a b : a ≠ b → bufferToHex a ≠ bufferToHex b.
Proof. intros Hne Heq. by apply Hne, bufferToHex_inj_aux. Qed.

Lemma bufferToHex_inj_witness :
  [Byte.x0a; Byte.xff] ≠ [Byte.xa0; Byte.xff]
  ∧ bufferToHex [Byte.x0a; Byte.xff] ≠ bufferToHex [Byte.xa0; Byte.xff].
Proof.
  assert (H : [Byte.x0a; Byte.xff] ≠ [Byte.xa0; Byte.xff]) by discriminate.
  split; [exact H|]. exact (bufferToHex_inj _ _ H).
Defined.

Lemma length_append a b :
  String.length (String.append a b) = String.length a + String.length b.
Proof. induction a as [|c a IH]; [done|]. rewrite append_cons. simpl. by rewrite IH. Qed.

Lemma substring_0_append a b n :
  (n ≤ String.length a)%nat → substring 0 n (String.append a b) = substring 0 n a.
Proof.
  revert a. induction n as [|n IH]; intros a Hn.
  - by rewrite !substring_0_0.
  - destruct a as [|c a]; simpl in *; [lia|]. rewrite IH; [done|lia].
Qed.

Lemma substring_0_substring_0 n s : substring 0 n (substring 0 n s) = substring 0 n s.
Proof.
  revert s. induction n as [|n IH]; intros [|c s]; simpl; try done. by rewrite IH.
Qed.

Lemma truncatePayload_short s m :
  (Z.of_nat (String.length s) ≤ m)%Z → truncatePayload s m = s.
Proof.
  intros H. unfold truncatePayload.
  by destruct (Z.leb_spec (Z.of_nat (String.length s)) m); [|lia].
Qed.

Lemma truncatePayload_long s m :
  (0 ≤ m < Z.of_nat (String.length s))%Z →
  truncatePayload s m = String.append (substring 0 (Z.to_nat m) s) "...".
Proof.
  intros H. unfold truncatePayload, slice_from_start.
  destruct (Z.leb_spec (Z.of_nat (String.length s)) m); [lia|].
  destruct (Z.ltb_spec m 0); [lia|].
  by rewrite Z.min_l by lia.
Qed.

(** X24: for a [maxLength] that is not negative, [truncatePayload] returns at
    most [maxLength + 3] characters, and the first [maxLength] characters of
    the input (all of them when it is shorter) are kept at the start.  The
    result is longer than the input exactly when the input is one or two
    characters longer than [maxLength]. *)
Theorem truncatePayload_bound s m :
  (0 ≤ m)%Z →
  let len := String.length s in
  let r := truncatePayload s m in
  (Z.of_nat (String.length r) ≤ m + 3)%Z
  ∧ substring 0 (Nat.min len (Z.to_nat m)) r = substring 0 (Nat.min len (Z.to_nat m)) s
  ∧ ((len < String.length r)%nat ↔ (m < Z.of_nat len < m + 3)%Z).
Proof.
  intros Hm len r. subst r.
  destruct (Z.le_gt_cases (Z.of_nat len) m) as [Hs|Hl].
  - rewrite truncatePayload_short by done. fold len. split_and!; [lia|done|lia].
  - rewrite truncatePayload_long by (fold len; lia).
    rewrite length_append, length_substring_0. fold len. simpl.
    replace (Nat.min len (Z.to_nat m)) with (Z.to_nat m) by lia.
    split_and!; [lia| |lia].
    rewrite substring_0_append.
    + apply substring_0_substring_0.
    + rewrite length_substring_0. fold len. lia.
Qed.

Lemma truncatePayload_bound_witness :
  (Z.of_nat (String.length (truncatePayload "c2VjcmV0" 6)) ≤ 6 + 3)%Z
  ∧ substring 0 6 (truncatePayload "c2VjcmV0" 6) = "c2Vjcm"
  ∧ (8 < String.length (truncatePayload "c2VjcmV0" 6))%nat.
Proof.
  destruct (truncatePayload_bound "c2VjcmV0" 6 ltac:(lia)) as (H1 & H2 & H3).
  split_and!; [exact H1|exact H2|]. apply H3. simpl. lia.
Defined.

(** X25: truncating what [truncatePayload] returned, with the same
    [maxLength], changes nothing. *)
Theorem truncatePayload_idempotent s m :
  (0 ≤ m)%Z → truncatePayload (truncatePayload s m) m = truncatePayload s m.
Proof.
  intros Hm.
  destruct (Z.le_gt_cases (Z.of_nat (String.length s)) m) as [Hs|Hl].
  - rewrite (truncatePayload_short s m Hs). apply truncatePayload_short, Hs.
  - rewrite (truncatePayload_long s) by lia.
    assert (Hlen : String.length (substring 0 (Z.to_nat m) s) = Z.to_nat m).
    { rewrite length_substring_0. lia. }
    rewrite truncatePayload_long.
    + rewrite substring_0_append by lia.
      rewrite <- Hlen at 1. by rewrite substring_0_all.
    + rewrite length_append, Hlen. simpl. lia.
Qed.

Lemma truncatePayload_idempotent_witness :
  truncatePayload (truncatePayload "c2VjcmV0" 6) 6 = "c2Vjcm...".
Proof. rewrite (truncatePayload_idempotent "c2VjcmV0" 6); [reflexivity|lia]. Defined.

(** X26: with the password hashed by [hashPassword], as the popup does before
    it calls [createStream] and [joinStream], a stream is open to exactly
    those who know a password with the digest of the creator's: the join
    request of another password with the same digest succeeds, one with
    another digest is refused with [Invalid access key] and changes
    nothing.  The digest is not empty. *)
Theorem password_opens_stream {encode digest} x y nodeId name p p' uuid now st :
  truthy name = true →
  digest (encode p) ≠ [] →
  let token q := JStr (hashPassword encode digest q) in
  let created :=
    streamCreate x (JObj [("streamName", name); ("passwordHash", token p)]) uuid now st in
  let st1 := final_state created in
  let o := streamJoin y nodeId (JObj [("streamId", JStr uuid); ("passwordHash", token p')]) st1 in
  create_succeeds x created
  ∧ (digest (encode p) = digest (encode p') → join_succeeds y o)
  ∧ (digest (encode p) ≠ digest (encode p') → join_fails Unauthorized y st1 o).
Proof.
  intros Hname Hd token created st1 o.
  assert (Htok : truthy (token p) = true).
  { apply truthy_nonempty_string. unfold hashPassword.
    destruct (digest (encode p)) as [|b bs]; [done|].
    destruct (bufferToHex_cons_chars b bs) as (? & ? & -> & _). done. }
  assert (Hcreated : created =
    Done (set_streams (jsmap_set uuid (Stream.mk uuid name (token p) now []) (streams st)) st)
      [ToSocket x (CreateResultOk uuid name)]).
  { unfold created, streamCreate. cbn [object_coercible negb].
    change (get_prop "streamName" _) with name.
    change (get_prop "passwordHash" _) with (token p).
    cbv zeta. by rewrite Hname, Htok. }
  assert (Hget : streams_get (JStr uuid) st1
                 = Some (uuid, Stream.mk uuid name (token p) now [])).
  { unfold st1. rewrite Hcreated. unfold streams_get. simpl.
    rewrite jsmap_get_set, decide_True by done. done. }
  split_and!.
  - rewrite Hcreated. exists uuid, name. simpl. set_solver.
  - intros Heq. unfold o, streamJoin.
    cbn [object_coercible negb].
    change (get_prop "streamId" _) with (JStr uuid).
    change (get_prop "passwordHash" _) with (token p').
    cbv zeta. rewrite Hget. cbn [Stream.passwordHash Stream.name].
    replace (strict_eq (token p) (token p')) with true.
    2:{ symmetry. apply strict_eq_JStr. unfold token, hashPassword. by rewrite Heq. }
    cbn [negb].
    destruct (match current_streamId (nodeMap st1 !! y) with
              | Some old => remove_from_stream y old true st1
              | None => (st1, [])
              end) as [st2 out2].
    exists uuid, name. simpl. set_solver.
  - intros Hne. unfold join_fails, o, streamJoin.
    cbn [object_coercible negb].
    change (get_prop "streamId" _) with (JStr uuid).
    change (get_prop "passwordHash" _) with (token p').
    cbv zeta. rewrite Hget. cbn [Stream.passwordHash].
    replace (strict_eq (token p) (token p')) with false; [done|].
    symmetry. apply not_true_is_false. intros Heq%strict_eq_JStr.
    injection Heq as Heq. by apply Hne, bufferToHex_inj_aux.
Qed.

Lemma password_opens_stream_witness :
  truthy (JStr "alpha") = true
  ∧ list_byte_of_string "s3cret" ≠ []
  ∧ join_succeeds socketB
      (streamJoin socketB "node-c81d4e2e"
         (JObj [("streamId", JStr streamS1);
                ("passwordHash", JStr (hashPassword list_byte_of_string id "s3cret"))])
         (final_state
            (streamCreate socketA
               (JObj [("streamName", JStr "alpha");
                      ("passwordHash", JStr (hashPassword list_byte_of_string id "s3cret"))])
               streamS1 1700000000000 init))).
Proof.
  assert (H1 : truthy (JStr "alpha") = true) by reflexivity.
  assert (H2 : id (list_byte_of_string "s3cret") ≠ []) by discriminate.
  split_and!; [exact H1|exact H2|].
  exact (proj1 (proj2 (password_opens_stream (encode := list_byte_of_string) (digest := id)
    socketA socketB "node-c81d4e2e" (JStr "alpha") "s3cret" "s3cret" streamS1
    1700000000000 init H1 H2)) eq_refl).
Defined.

(** X27: [decrypt] undoes [encrypt]: with the twelve bytes of the initialization
    vector in front of the ciphertext, [decrypt] finds both again and
    returns the plaintext, for a [btoa]/[atob], an AES-GCM and a text
    codec that undo each other. *)
Theorem decrypt_encrypt {Key} btoa atob aes_encrypt aes_decrypt encode decode
    plaintext (key : Key) iv :
  (∀ s, atob (btoa s) = Some s) →
  (∀ data, aes_decrypt key iv (aes_encrypt key iv data) = Some data) →
  decode (encode plaintext) = plaintext →
  length iv = ivLength →
  decrypt atob aes_decrypt decode (encrypt btoa aes_encrypt encode plaintext key iv) key
  = Some plaintext.
Proof.
  intros Hb Haes Htext Hiv. unfold decrypt, encrypt, base64ToBuffer, bufferToBase64.
  rewrite Hb. cbn [fmap option_fmap option_map].
  rewrite list_byte_of_string_of_list_byte.
  rewrite <- Hiv, take_app_length, drop_app_length, Haes. by rewrite Htext.
Qed.

Lemma decrypt_encrypt_witness :
  decrypt (Key := unit) Some (λ _ _ data, Some (rev data)) string_of_list_byte
    (encrypt id (λ _ _ data, rev data) list_byte_of_string "hello" ()
       (replicate 12 Byte.x2a)) ()
  = Some "hello".
Proof.
  apply (decrypt_encrypt (Key := unit) id Some (λ _ _ data, rev data)
           (λ _ _ data, Some (rev data)) list_byte_of_string string_of_list_byte).
  - reflexivity.
  - intros data. by rewrite rev_involutive.
  - reflexivity.
  - reflexivity.
Defined.
